(** * Bfi: the jump-table builder and the execution engine of [bfc.c]

    A shallow embedding of [tape_init], [build_jumps], [exec] and the
    driver of [src/bfc.c], followed by the properties of the
    specification that were checked against it.

    Conventions of the embedding.
    - [size_t] and [ssize_t] are 64 bits wide (LP64).  Values of both
      types are integers of [Z]; every arithmetic operation and every
      conversion of the source is followed by its wrap-around
      ([to_size_t], [to_ssize_t], [to_uchar]).
    - A heap block is a [list Z].  Reading or writing outside of a block
      is undefined in C; the embedding makes it the result [OutOfBounds].
    - Allocation succeeds ([malloc], [calloc] return a block).  The
      contents of a block obtained by [malloc] are indeterminate: they
      are given by an arbitrary function [junk], a variable of the
      development.
    - [stdin] and [stdout] are lists of bytes; [stderr] is not part of
      the state, the diagnostic of [build_jumps] is carried by the
      result [BracketError]. *)

From Stdlib Require Import ZArith Ascii String Lia.
From stdpp Require Import base tactics option list.
From Equations Require Import Equations.

Local Open Scope Z_scope.

(** ** Machine integers *)

Definition SIZE_MODULUS : Z := 2 ^ 64.
Definition SSIZE_HALF : Z := 2 ^ 63.
Definition sizeof_size_t : Z := 8.

(** Conversion to [size_t]. *)
Definition to_size_t (z : Z) : Z := z mod SIZE_MODULUS.

(** Conversion to [ssize_t] (two's complement). *)
Definition to_ssize_t (z : Z) : Z :=
  (z + SSIZE_HALF) mod SIZE_MODULUS - SSIZE_HALF.

(** Conversion to [unsigned char]. *)
Definition to_uchar (z : Z) : Z := z mod 256.

Definition is_byte (z : Z) : Prop := 0 ≤ z < 256.

(** ** Results *)

Inductive match_error : Type :=
| UnmatchedClose (index : Z)   (* "Unmatched ']' at %zu" *)
| UnmatchedOpen (index : Z).   (* "Unmatched '[' at %zu" *)

Inductive result (A : Type) : Type :=
| Ok (a : A)
| BracketError (e : match_error)   (* diagnostic on stderr, return -1 *)
| OutOfBounds.                     (* access outside of a block *)

Arguments Ok {A} a.
Arguments BracketError {A} e.
Arguments OutOfBounds {A}.

#[global] Instance result_ret : MRet result := @Ok.
#[global] Instance result_bind : MBind result := λ A B f r,
  match r with
  | Ok a => f a
  | BracketError e => BracketError e
  | OutOfBounds => OutOfBounds
  end.

(** ** Heap blocks *)

(** [l[i]] as an rvalue. *)
Definition load {A : Type} (l : list A) (i : Z) : result A :=
  if decide (0 ≤ i) then
    match l !! Z.to_nat i with
    | Some x => Ok x
    | None => OutOfBounds
    end
  else OutOfBounds.

(** [l[i] = x]. *)
Definition store {A : Type} (l : list A) (i : Z) (x : A) : result (list A) :=
  if decide (0 ≤ i ∧ i < Z.of_nat (length l)) then Ok (<[Z.to_nat i := x]> l)
  else OutOfBounds.

Section Allocation.
(** The indeterminate contents of fresh memory. *)
Variable junk : nat → Z.

(** [malloc(size)] seen as a block of [size / width] objects. *)
Definition malloc (size width : Z) : list Z :=
  junk <$> seq 0 (Z.to_nat (size / width)).

(** [calloc(count, sizeof(ssize_t))]: [count] objects, all bits zero. *)
Definition calloc (count : Z) : list Z := replicate (Z.to_nat count) 0.
End Allocation.

(** ** The jump-table builder *)

Record build_state : Type := BuildState {
  jumps : list Z;   (* ssize_t *jumps *)
  stack : list Z;   (* size_t *stack *)
  sp : Z            (* size_t sp *)
}.

Section Builder.
Variable junk : nat → Z.
Variable code : list ascii.

Definition code_len : Z := Z.of_nat (length code).

(** The body of the [for] loop of [build_jumps] at index [i]. *)
Definition build_body (i : Z) (s : build_state) : result build_state :=
  c ← load code i;
  if (c =? "[")%char then
    stack' ← store (stack s) (sp s) i;
    Ok (BuildState (jumps s) stack' (to_size_t (sp s + 1)))
  else if (c =? "]")%char then
    if decide (sp s = 0) then BracketError (UnmatchedClose i)
    else
      let sp' := to_size_t (sp s - 1) in
      open_idx ← load (stack s) sp';
      jumps1 ← store (jumps s) open_idx (to_ssize_t i);
      jumps2 ← store jumps1 i (to_ssize_t open_idx);
      Ok (BuildState jumps2 (stack s) sp')
  else Ok s.

(** [for (; i < code_len; ++i)] with [n = code_len - i] iterations left:
    the body changes neither [i] nor [code_len], and leaves the loop
    only by [return]. *)
Fixpoint build_loop (n : nat) (i : Z) (s : build_state) : result build_state :=
  match n with
  | O => Ok s
  | S n' =>
      s' ← build_body i s;
      build_loop n' (to_size_t (i + 1)) s'
  end.

Definition build_init : build_state :=
  BuildState (calloc code_len)
             (malloc junk (to_size_t (code_len * sizeof_size_t)) sizeof_size_t)
             0.

Definition build_jumps : result (list Z) :=
  s ← build_loop (Z.to_nat code_len) 0 build_init;
  if decide (sp s ≠ 0) then
    top ← load (stack s) (to_size_t (sp s - 1));
    BracketError (UnmatchedOpen top)
  else Ok (jumps s).
End Builder.

(** ** The tape *)

Record tape_t : Type := Tape {
  tape : list Z;   (* unsigned char *tape *)
  pos : Z;         (* size_t pos *)
  len : Z          (* size_t len *)
}.

(** [static const unsigned char zero_block[4096] = {0}] *)
Definition zero_block : list Z := replicate 4096 0.
Definition sizeof_zero_block : Z := 4096.

(** [memcpy(dst + p, src, n)] *)
Definition memcpy (dst : list Z) (p : Z) (src : list Z) (n : Z) : result (list Z) :=
  if decide (0 ≤ p ∧ 0 ≤ n ∧ p + n ≤ Z.of_nat (length dst) ∧ n ≤ Z.of_nat (length src))
  then Ok (take (Z.to_nat p) dst ++ take (Z.to_nat n) src ++ drop (Z.to_nat (p + n)) dst)
  else OutOfBounds.

(** The zero-filling loop of [tape_init]: [while (remaining)], where
    [remaining] is unsigned and [p] is the offset of the write pointer
    in the block. *)
Equations? zero_fill (remaining p : Z) (dst : list Z) : result (list Z)
  by wf (Z.to_nat remaining) lt :=
  zero_fill remaining p dst with decide (0 < remaining) => {
    | right _ := Ok dst
    | left Hpos :=
        let chunk := if decide (remaining < sizeof_zero_block) then remaining
                     else sizeof_zero_block in
        dst' ← memcpy dst p zero_block chunk;
        zero_fill (to_size_t (remaining - chunk)) (p + chunk) dst' }.
Proof.
  assert (0 ≤ remaining - chunk < remaining) as Hlt.
  { subst chunk. unfold sizeof_zero_block. case_decide; lia. }
  clearbody chunk.
  assert (0 < 2 ^ 64) as HM by reflexivity.
  destruct Hlt as [Hge Hlt].
  pose proof (Z.mod_le (remaining - chunk) (2 ^ 64) Hge HM).
  pose proof (Z.mod_pos_bound (remaining - chunk) (2 ^ 64) HM).
  unfold to_size_t, SIZE_MODULUS. apply Z2Nat.inj_lt; lia.
Qed.

Section Tape.
Variable junk : nat → Z.

Definition tape_init (len : Z) : result tape_t :=
  let len := if decide (len = 0) then 1 else len in
  let block := malloc junk len 1 in
  cells ← zero_fill len 0 block;
  Ok (Tape cells 0 len).
End Tape.

(** ** The execution engine *)

Record machine : Type := Machine {
  tp : tape_t;        (* tape_t *t *)
  stdin : list Z;     (* bytes still to be read *)
  stdout : list Z     (* bytes written so far *)
}.

Definition EOF : Z := -1.

Definition getchar (input : list Z) : Z * list Z :=
  match input with
  | [] => (EOF, [])
  | b :: rest => (to_uchar b, rest)
  end.

Definition putchar (c : Z) (output : list Z) : list Z := output ++ [to_uchar c].

Definition set_cells (m : machine) (cells : list Z) : machine :=
  Machine (Tape cells (pos (tp m)) (len (tp m))) (stdin m) (stdout m).

Definition set_pos (m : machine) (p : Z) : machine :=
  Machine (Tape (tape (tp m)) p (len (tp m))) (stdin m) (stdout m).

(** The [switch] of [exec] on the character [c] at [ip]; the result is
    the value of [ip] at the end of the [switch] and the new state. *)
Definition dispatch (jumps : list Z) (c : ascii) (ip : Z) (m : machine)
  : result (Z * machine) :=
  let t := tp m in
  if (c =? "+")%char then
    v ← load (tape t) (pos t);
    cells ← store (tape t) (pos t) (to_uchar (v + 1));
    Ok (ip, set_cells m cells)
  else if (c =? "-")%char then
    v ← load (tape t) (pos t);
    cells ← store (tape t) (pos t) (to_uchar (v - 1));
    Ok (ip, set_cells m cells)
  else if (c =? ">")%char then
    if decide (to_size_t (pos t + 1) >= len t) then Ok (ip, set_pos m 0)
    else Ok (ip, set_pos m (to_size_t (pos t + 1)))
  else if (c =? "<")%char then
    if decide (pos t = 0) then Ok (ip, set_pos m (to_size_t (len t - 1)))
    else Ok (ip, set_pos m (to_size_t (pos t - 1)))
  else if (c =? ".")%char then
    v ← load (tape t) (pos t);
    Ok (ip, Machine t (stdin m) (putchar v (stdout m)))
  else if (c =? ",")%char then
    let '(ch, rest) := getchar (stdin m) in
    cells ← store (tape t) (pos t) (if decide (ch = EOF) then 0 else to_uchar ch);
    Ok (ip, Machine (Tape cells (pos t) (len t)) rest (stdout m))
  else if (c =? "[")%char then
    v ← load (tape t) (pos t);
    if decide (v = 0) then
      target ← load jumps ip;
      Ok (to_size_t target, m)
    else Ok (ip, m)
  else if (c =? "]")%char then
    v ← load (tape t) (pos t);
    if decide (v ≠ 0) then
      target ← load jumps ip;
      Ok (to_size_t target, m)
    else Ok (ip, m)
  else Ok (ip, m).

Inductive outcome : Type :=
| Finished (m : machine)                   (* the loop ran to [code_len] *)
| Aborted (e : match_error) (m : machine)  (* "Bracket matching failed. Aborting." *)
| Undefined                                (* an access out of bounds *)
| OutOfFuel.                               (* still running *)

Section Engine.
Variable junk : nat → Z.
Variable code : list ascii.

(** One iteration of the [for] loop of [exec]: the [switch], then [++ip]. *)
Definition exec_body (jumps : list Z) (ip : Z) (m : machine) : result (Z * machine) :=
  c ← load code ip;
  '(ip', m') ← dispatch jumps c ip m;
  Ok (to_size_t (ip' + 1), m').

(** [for (ip; ip < code_len; ++ip)], at most [fuel] iterations. *)
Fixpoint exec_loop (jumps : list Z) (fuel : nat) (ip : Z) (m : machine) : outcome :=
  if decide (ip < code_len code) then
    match fuel with
    | O => OutOfFuel
    | S fuel' =>
        match exec_body jumps ip m with
        | Ok (ip', m') => exec_loop jumps fuel' ip' m'
        | _ => Undefined
        end
    end
  else Finished m.

Definition exec (fuel : nat) (m : machine) : outcome :=
  match build_jumps junk code with
  | Ok jumps => exec_loop jumps fuel 0 m
  | BracketError e => Aborted e m
  | OutOfBounds => Undefined
  end.

(** [main], from the call of [tape_init] on; [code] is the buffer read
    by [read_file_to_buffer] and [input] the contents of [stdin]. *)
Definition main (fuel : nat) (input : list Z) : outcome :=
  match tape_init junk (if decide (code_len code ≠ 0) then code_len code else 1) with
  | Ok t => exec fuel (Machine t input [])
  | _ => Undefined
  end.
End Engine.

Definition prog (s : string) : list ascii := list_ascii_of_string s.

(** ** Bracket structure of a program *)

Definition is_bracket (c : ascii) : Prop := c = "["%char ∨ c = "]"%char.

(** [balanced_from d s]: scanning [s] with [d] loop-opens pending, no
    loop-close finds the count at zero and the count ends at zero. *)
Fixpoint balanced_from (d : nat) (s : list ascii) : bool :=
  match s with
  | [] => Nat.eqb d 0
  | c :: s' =>
      if (c =? "[")%char then balanced_from (S d) s'
      else if (c =? "]")%char then
        match d with
        | O => false
        | S d' => balanced_from d' s'
        end
      else balanced_from d s'
  end.

(** Balanced and properly nested brackets. *)
Definition balanced (s : list ascii) : Prop := balanced_from 0 s = true.

(** The characters at the indices [a], ..., [b - 1]. *)
Definition segment (s : list ascii) (a b : nat) : list ascii :=
  take (b - a) (drop a s).

(** The loop-open at [i] and the loop-close at [j] delimit one loop:
    what stands between them is balanced. *)
Definition paired (s : list ascii) (i j : nat) : Prop :=
  s !! i = Some "["%char ∧ s !! j = Some "]"%char ∧ (i < j)%nat ∧
  balanced (segment s (S i) j).

(** The number of loop-opens of [s] with no loop-close in [s], when [d]
    were pending before [s]; a loop-close with nothing pending is
    passed over. *)
Fixpoint pending_opens (d : nat) (s : list ascii) : nat :=
  match s with
  | [] => d
  | c :: s' =>
      if (c =? "[")%char then pending_opens (S d) s'
      else if (c =? "]")%char then pending_opens (Nat.pred d) s'
      else pending_opens d s'
  end.

(** A loop-close at [k] that no unmatched loop-open precedes. *)
Definition unmatched_close (s : list ascii) (k : nat) : Prop :=
  s !! k = Some "]"%char ∧ pending_opens 0 (take k s) = 0%nat.

(** A loop-open at [i] that is never closed. *)
Definition unmatched_open (s : list ascii) (i : nat) : Prop :=
  s !! i = Some "["%char ∧ ∀ j, ¬ paired s i j.

(** The last of the loop-opens that are never closed. *)
Definition innermost_unmatched_open (s : list ascii) (m : nat) : Prop :=
  unmatched_open s m ∧ ∀ i, unmatched_open s i → (i ≤ m)%nat.

(** ** The state of the builder, abstractly *)

(** [st] lists the live part of the stack array, top first. *)
Definition stack_rep (s : build_state) (st : list nat) : Prop :=
  sp s = Z.of_nat (length st) ∧
  ∀ k x, rev st !! k = Some x → stack s !! k = Some (Z.of_nat x).

(** The entries of the stack are loop-opens, in decreasing order from
    the top, each followed by a balanced segment up to the next one (up
    to the scan position [n] for the top). *)
Fixpoint chain (code : list ascii) (n : nat) (st : list nat) : Prop :=
  match st with
  | [] => True
  | t :: r =>
      (t < n)%nat ∧ code !! t = Some "["%char ∧
      balanced (segment code (S t) n) ∧ chain code t r
  end.

(** The invariant of the loop of [build_jumps] before index [n]. *)
Record build_inv (code : list ascii) (n : nat) (s : build_state) (st : list nat)
  : Prop := BuildInv {
  inv_jumps_len : length (jumps s) = length code;
  inv_stack_len : length (stack s) = length code;
  inv_rep : stack_rep s st;
  inv_chain : chain code n st;
  inv_pending : length st = pending_opens 0 (take n code);
  inv_pairs : ∀ a b, (b < n)%nat → paired code a b →
    jumps s !! a = Some (Z.of_nat b) ∧ jumps s !! b = Some (Z.of_nat a);
  inv_closed : ∀ k c, (k < n)%nat → code !! k = Some c → is_bracket c → k ∉ st →
    ∃ a b, paired code a b ∧ (b < n)%nat ∧ (k = a ∨ k = b);
  inv_zero : ∀ k c, code !! k = Some c →
    (n ≤ k)%nat ∨ k ∈ st ∨ ¬ is_bracket c → jumps s !! k = Some 0
}.

(** ** The state of the engine *)

(** A tape as [tape_init] makes it and [exec] keeps it: [len] cells,
    [len] at least 1, the cursor on one of the cells. *)
Definition tape_ok (t : tape_t) : Prop :=
  1 ≤ len t < SIZE_MODULUS ∧ 0 ≤ pos t < len t ∧
  Z.of_nat (length (tape t)) = len t.

(** The cell at the cursor holds [v]. *)
Definition cell_at_cursor (m : machine) (v : Z) : Prop :=
  load (tape (tp m)) (pos (tp m)) = Ok v.

(** The symbol [c], met with [v] in the cell at the cursor, takes the
    jump of the table. *)
Definition jump_taken (c : ascii) (v : Z) : Prop :=
  (c = "["%char ∧ v = 0) ∨ (c = "]"%char ∧ v ≠ 0).

(** ** Sample programs *)

Definition hello_world : list ascii :=
  prog "++++++++[>++++[>++>+++>+++>+<<<<-]>+>+>->>+[<]<-]>>.>---.+++++++..+++.>>.<-.<.+++.------.--------.>>+.>++.".

Definition stdout_of (o : outcome) : option (list Z) :=
  match o with
  | Finished m => Some (stdout m)
  | _ => None
  end.

(** ** Builder states that differ in dead stack slots only *)

(** [s1] and [s2] have the same table, the same [sp] and the same live
    stack entries; the slots at [sp] and above may differ. *)
Definition stack_agree (s1 s2 : build_state) : Prop :=
  jumps s1 = jumps s2 ∧ sp s1 = sp s2 ∧
  length (stack s1) = length (stack s2) ∧
  0 ≤ sp s1 < SIZE_MODULUS ∧
  ∀ k, Z.of_nat k < sp s1 → stack s1 !! k = stack s2 !! k.

(** The results of two runs of the builder are the same up to dead
    stack slots. *)
Definition result_agree (r1 r2 : result build_state) : Prop :=
  match r1, r2 with
  | Ok s1, Ok s2 => stack_agree s1 s2
  | BracketError e1, BracketError e2 => e1 = e2
  | OutOfBounds, OutOfBounds => True
  | _, _ => False
  end.

(** ** The driver *)

(** [main] as a whole: the exit status, what is left of the input and
    what was written to the output.  [file] is what
    [read_file_to_buffer] returned, [None] for [NULL]; the result is
    [None] while [exec] has not returned. *)
Definition main_exit (junk : nat → Z) (argc : Z) (file : option (list ascii))
    (fuel : nat) (input : list Z) : option (Z * list Z * list Z) :=
  if decide (argc ≠ 2) then Some (2, input, [])
  else
    match file with
    | None => Some (1, input, [])
    | Some code =>
        match main junk code fuel input with
        | Finished m | Aborted _ m => Some (0, stdin m, stdout m)
        | Undefined | OutOfFuel => None
        end
    end.

(** * Properties *)

(** ** Machine integers and blocks *)

Lemma to_size_t_small z : 0 ≤ z < SIZE_MODULUS → to_size_t z = z.
Proof. intros H. unfold to_size_t. by apply Z.mod_small. Qed.

Lemma to_ssize_t_small z : 0 ≤ z < SSIZE_HALF → to_ssize_t z = z.
Proof.
  intros H. unfold to_ssize_t, SSIZE_HALF, SIZE_MODULUS in *.
  rewrite Z.mod_small; lia.
Qed.

Lemma load_nat {A} (l : list A) (n : nat) x :
  l !! n = Some x → load l (Z.of_nat n) = Ok x.
Proof.
  intros H. unfold load. rewrite decide_True by lia.
  by rewrite Nat2Z.id, H.
Qed.

Lemma store_nat {A} (l : list A) (n : nat) x :
  (n < length l)%nat → store l (Z.of_nat n) x = Ok (<[n := x]> l).
Proof.
  intros H. unfold store. rewrite decide_True by lia.
  by rewrite Nat2Z.id.
Qed.

(** ** Balanced programs *)

Lemma is_bracket_dec c : is_bracket c ∨ ¬ is_bracket c.
Proof.
  unfold is_bracket.
  destruct (Ascii.eqb_spec c "["); [by left; left|].
  destruct (Ascii.eqb_spec c "]"); [by left; right|].
  right. intros [?|?]; done.
Qed.

Lemma balanced_from_app e A d B :
  balanced_from e A = true →
  balanced_from (d + e) (A ++ B) = balanced_from d B.
Proof.
  revert e. induction A as [|c A IH]; intros e HA; simpl in *.
  - apply Nat.eqb_eq in HA. subst e. by rewrite Nat.add_0_r.
  - destruct (c =? "[")%char.
    + rewrite <- (IH (S e)) by done. f_equal. lia.
    + destruct (c =? "]")%char; [|by apply IH].
      destruct e as [|e]; [done|].
      rewrite Nat.add_succ_r. by apply IH.
Qed.

Lemma balanced_app_from A d B :
  balanced A → balanced_from d (A ++ B) = balanced_from d B.
Proof.
  intros HA. rewrite <- (balanced_from_app 0 A d B HA). f_equal. lia.
Qed.

Lemma balanced_nil : balanced [].
Proof. reflexivity. Qed.

Lemma balanced_snoc B c : balanced B → ¬ is_bracket c → balanced (B ++ [c]).
Proof.
  intros HB Hc. unfold balanced. rewrite balanced_app_from by done. simpl.
  destruct (Ascii.eqb_spec c "["); [destruct Hc; by left|].
  destruct (Ascii.eqb_spec c "]"); [destruct Hc; by right|]. done.
Qed.

Lemma balanced_wrap A B :
  balanced A → balanced B → balanced (A ++ "["%char :: B ++ ["]"%char]).
Proof.
  intros HA HB. unfold balanced. rewrite balanced_app_from by done. simpl.
  by rewrite (balanced_app_from B 1 _ HB).
Qed.

(** A balanced string is not followed by its own loop-close. *)
Lemma balanced_not_close X Y : balanced X → ¬ balanced (X ++ "]"%char :: Y).
Proof.
  intros HX. unfold balanced. rewrite balanced_app_from by done. simpl. done.
Qed.

(** A loop-open followed by a balanced string stays open. *)
Lemma balanced_not_open X Y d :
  balanced Y → balanced_from d (X ++ "["%char :: Y) = false.
Proof.
  intros HY. revert d. induction X as [|c X IH]; intros d; simpl.
  - rewrite <- (app_nil_r Y). by rewrite balanced_app_from.
  - destruct (c =? "[")%char; [done|].
    destruct (c =? "]")%char; [|done]. destruct d; done.
Qed.

Lemma pending_opens_snoc d s c :
  pending_opens d (s ++ [c]) =
    if (c =? "[")%char then S (pending_opens d s)
    else if (c =? "]")%char then Nat.pred (pending_opens d s)
    else pending_opens d s.
Proof.
  revert d. induction s as [|x s IH]; intros d; simpl.
  - by repeat case_match.
  - destruct (x =? "[")%char; [done|]. destruct (x =? "]")%char; done.
Qed.

Lemma balanced_from_pending d s :
  balanced_from d s = true →
  pending_opens d s = 0%nat ∧
  ∀ k, s !! k = Some "]"%char → pending_opens d (take k s) ≠ 0%nat.
Proof.
  revert d. induction s as [|c s IH]; intros d H; simpl in *.
  - apply Nat.eqb_eq in H. split; [done|]. intros k Hk. done.
  - destruct (Ascii.eqb_spec c "[") as [->|Hopen].
    + destruct (IH _ H) as [H1 H2]. split; [done|].
      intros [|k] Hk; simpl in *; [done|]. by apply H2.
    + destruct (Ascii.eqb_spec c "]") as [->|Hclose].
      * destruct d as [|d]; [done|]. destruct (IH _ H) as [H1 H2].
        split; [done|]. intros [|k] Hk; simpl in *; [done|]. by apply H2.
      * destruct (IH _ H) as [H1 H2]. split; [done|].
        intros [|k] Hk; simpl in *; [congruence|].
        rewrite (proj2 (Ascii.eqb_neq _ _) Hopen).
        rewrite (proj2 (Ascii.eqb_neq _ _) Hclose). by apply H2.
Qed.

Lemma pending_balanced_from d s :
  pending_opens d s = 0%nat →
  (∀ k, s !! k = Some "]"%char → pending_opens d (take k s) ≠ 0%nat) →
  balanced_from d s = true.
Proof.
  revert d. induction s as [|c s IH]; intros d Hend Hnone; simpl in *.
  - by apply Nat.eqb_eq.
  - destruct (Ascii.eqb_spec c "[") as [->|Hopen].
    + apply IH; [done|]. intros k Hk. by apply (Hnone (S k)).
    + destruct (Ascii.eqb_spec c "]") as [->|Hclose].
      * destruct d as [|d]; [by destruct (Hnone 0%nat)|].
        apply IH; [done|]. intros k Hk. by apply (Hnone (S k)).
      * apply IH; [done|]. intros k Hk. specialize (Hnone (S k) Hk). simpl in Hnone.
        rewrite (proj2 (Ascii.eqb_neq _ _) Hopen) in Hnone.
        by rewrite (proj2 (Ascii.eqb_neq _ _) Hclose) in Hnone.
Qed.

(** The first loop-close that no unmatched loop-open precedes is the
    loop-close that follows a balanced prefix. *)
Lemma first_unmatched_close_iff code k :
  unmatched_close code k ∧ (∀ k', (k' < k)%nat → ¬ unmatched_close code k') ↔
  code !! k = Some "]"%char ∧ balanced (take k code).
Proof.
  split.
  - intros [[Hk Hp] Hfirst]. split; [done|].
    apply pending_balanced_from; [done|].
    intros j Hj. apply lookup_take_Some in Hj as [Hj Hjk].
    rewrite take_take, Nat.min_l by lia. intros Hp'.
    by apply (Hfirst j Hjk).
  - intros [Hk Hbal]. destruct (balanced_from_pending 0 _ Hbal) as [Hend Hnone].
    split; [done|]. intros k' Hk' [Hc Hp].
    apply (Hnone k').
    + by rewrite lookup_take_lt.
    + rewrite take_take, Nat.min_l by lia. done.
Qed.

(** ** Segments *)

Lemma segment_nil s a : segment s a a = [].
Proof. unfold segment. by rewrite Nat.sub_diag. Qed.

Lemma segment_snoc s a b c :
  (a ≤ b)%nat → s !! b = Some c → segment s a (S b) = segment s a b ++ [c].
Proof.
  intros Hab Hb. unfold segment.
  replace (S b - a)%nat with (S (b - a)) by lia.
  apply take_S_r. rewrite lookup_drop. by replace (a + (b - a))%nat with b by lia.
Qed.

Lemma segment_split s a b c :
  (a ≤ b)%nat → (b ≤ c)%nat → segment s a c = segment s a b ++ segment s b c.
Proof.
  intros Hab Hbc. unfold segment.
  replace (c - a)%nat with ((b - a) + (c - b))%nat by lia.
  rewrite <- take_take_drop, drop_drop.
  by replace (a + (b - a))%nat with b by lia.
Qed.

Lemma segment_cons s a b c :
  (a < b)%nat → s !! a = Some c → segment s a b = c :: segment s (S a) b.
Proof.
  intros Hab Ha. unfold segment.
  rewrite (drop_S _ _ _ Ha).
  by replace (b - a)%nat with (S (b - S a)) by lia.
Qed.

Lemma segment_open s a t n :
  (a ≤ t)%nat → (t < n)%nat → s !! t = Some "["%char →
  segment s a n = segment s a t ++ "["%char :: segment s (S t) n.
Proof.
  intros Hat Htn Ht.
  rewrite (segment_split s a t n) by lia. by rewrite (segment_cons s t n "[").
Qed.

Lemma segment_close s a b n :
  (a ≤ b)%nat → (b < n)%nat → s !! b = Some "]"%char →
  segment s a n = segment s a b ++ "]"%char :: segment s (S b) n.
Proof.
  intros Hab Hbn Hb.
  rewrite (segment_split s a b n) by lia. by rewrite (segment_cons s b n "]").
Qed.

(** ** Pairs *)

(** The loop-close of a pair is the first position after the loop-open
    up to which the text is balanced. *)
Lemma paired_close_first s a b n :
  paired s a b → (b < n)%nat → ¬ balanced (segment s (S a) n).
Proof.
  intros (Ha & Hb & Hab & Hbal) Hbn.
  rewrite (segment_close s (S a) b n) by done.
  by apply balanced_not_close.
Qed.

(** Two loop-opens followed by balanced text up to the same position
    are the same. *)
Lemma open_before_unique s a t n :
  s !! a = Some "["%char → s !! t = Some "["%char → (a < n)%nat → (t < n)%nat →
  balanced (segment s (S a) n) → balanced (segment s (S t) n) → a = t.
Proof.
  intros Ha Ht Han Htn Hba Hbt.
  destruct (lt_eq_lt_dec a t) as [[Hlt| ->]|Hlt]; [|done|]; exfalso.
  - rewrite (segment_open s (S a) t n) in Hba by done.
    unfold balanced in Hba. by rewrite balanced_not_open in Hba.
  - rewrite (segment_open s (S t) a n) in Hbt by done.
    unfold balanced in Hbt. by rewrite balanced_not_open in Hbt.
Qed.

Lemma paired_close_unique s a b b' : paired s a b → paired s a b' → b = b'.
Proof.
  intros H H'.
  destruct (lt_eq_lt_dec b b') as [[Hlt| ->]|Hlt]; [|done|]; exfalso.
  - apply (paired_close_first s a b b' H Hlt). apply H'.
  - apply (paired_close_first s a b' b H' Hlt). apply H.
Qed.

Lemma paired_open_unique s a a' b : paired s a b → paired s a' b → a = a'.
Proof.
  intros (Ha & Hb & Hab & Hbal) (Ha' & _ & Hab' & Hbal').
  by apply (open_before_unique s a a' b).
Qed.

(** ** The chain of pending loop-opens *)

Lemma chain_lt code n st k : chain code n st → k ∈ st → (k < n)%nat.
Proof.
  revert n. induction st as [|t r IH]; intros n Hch Hk; [by apply elem_of_nil in Hk|].
  destruct Hch as (Htn & _ & _ & Hr).
  apply elem_of_cons in Hk as [->|Hk]; [done|].
  specialize (IH t Hr Hk). lia.
Qed.

Lemma chain_length code n st : chain code n st → (length st ≤ n)%nat.
Proof.
  revert n. induction st as [|t r IH]; intros n Hch; simpl; [lia|].
  destruct Hch as (Htn & _ & _ & Hr). specialize (IH t Hr). lia.
Qed.

Lemma chain_is_open code n st k : chain code n st → k ∈ st → code !! k = Some "["%char.
Proof.
  revert n. induction st as [|t r IH]; intros n Hch Hk; [by apply elem_of_nil in Hk|].
  destruct Hch as (_ & Ht & _ & Hr).
  apply elem_of_cons in Hk as [->|Hk]; [done|]. by apply (IH t).
Qed.

Lemma chain_other code n st c :
  chain code n st → code !! n = Some c → ¬ is_bracket c → chain code (S n) st.
Proof.
  intros Hch Hn Hc. destruct st as [|t r]; [done|].
  destruct Hch as (Htn & Ht & Hbal & Hr). repeat split; [lia|done| |done].
  rewrite (segment_snoc code (S t) n c) by done. by apply balanced_snoc.
Qed.

Lemma chain_push code n st :
  chain code n st → code !! n = Some "["%char → chain code (S n) (n :: st).
Proof.
  intros Hch Hn. repeat split; [lia|done| |done].
  rewrite segment_nil. apply balanced_nil.
Qed.

Lemma chain_pop code n t r :
  chain code n (t :: r) → code !! n = Some "]"%char → chain code (S n) r.
Proof.
  intros (Htn & Ht & Hbal & Hr) Hn. destruct r as [|t' r']; [done|].
  destruct Hr as (Htt & Ht' & Hbal' & Hr'). repeat split; [lia|done| |done].
  rewrite (segment_open code (S t') t (S n)) by (done || lia).
  rewrite (segment_snoc code (S t) n "]") by done.
  by apply balanced_wrap.
Qed.

Lemma chain_top_paired code n t r :
  chain code n (t :: r) → code !! n = Some "]"%char → paired code t n.
Proof. intros (Htn & Ht & Hbal & _) Hn. by repeat split. Qed.

(** ** The loop of [build_jumps] *)

Section BuilderProofs.
Variable junk : nat → Z.
Variable code : list ascii.
(** [code_len * sizeof(size_t)] does not wrap. *)
Hypothesis Hlen : code_len code < 2 ^ 61.

Lemma index_size_t (n : nat) : (n ≤ length code)%nat → 0 ≤ Z.of_nat n < SIZE_MODULUS.
Proof. unfold code_len, SIZE_MODULUS in *. lia. Qed.

Lemma index_ssize_t (n : nat) : (n ≤ length code)%nat → to_ssize_t (Z.of_nat n) = Z.of_nat n.
Proof.
  intros H. apply to_ssize_t_small. unfold code_len, SSIZE_HALF in *. lia.
Qed.

Lemma index_succ (n : nat) :
  (n < length code)%nat → to_size_t (Z.of_nat n + 1) = Z.of_nat (S n).
Proof.
  intros H. rewrite to_size_t_small; [lia|].
  unfold code_len, SIZE_MODULUS in *. lia.
Qed.

Lemma index_pred (n : nat) :
  (n < length code)%nat → to_size_t (Z.of_nat (S n) - 1) = Z.of_nat n.
Proof.
  intros H. rewrite to_size_t_small; [lia|].
  unfold code_len, SIZE_MODULUS in *. lia.
Qed.

Lemma build_init_inv : build_inv code 0 (build_init junk code) [].
Proof.
  unfold build_init, calloc, malloc, code_len, sizeof_size_t in *.
  split; simpl.
  - by rewrite length_replicate, Nat2Z.id.
  - rewrite length_fmap, length_seq.
    rewrite to_size_t_small by (unfold SIZE_MODULUS; lia).
    by rewrite Z.div_mul, Nat2Z.id by done.
  - split; [done|]. intros k x Hk. done.
  - done.
  - done.
  - intros a b Hb. lia.
  - intros k c Hk. lia.
  - intros k c Hk _. apply lookup_replicate_2.
    apply lookup_lt_Some in Hk. lia.
Qed.

Lemma body_open n s st :
  build_inv code n s st → code !! n = Some "["%char →
  ∃ s', build_body code (Z.of_nat n) s = Ok s' ∧ build_inv code (S n) s' (n :: st).
Proof.
  intros [Hjl Hsl [Hsp Hst] Hch Hpend Hpairs Hclosed Hzero] Hc.
  pose proof (lookup_lt_Some _ _ _ Hc) as Hn.
  pose proof (chain_length _ _ _ Hch) as Hdepth.
  unfold build_body. rewrite (load_nat _ _ _ Hc). simpl.
  rewrite Hsp, store_nat by lia. simpl.
  eexists. split; [reflexivity|]. split; simpl.
  - done.
  - by rewrite length_insert.
  - split; simpl; [apply index_succ; lia|].
    intros k x Hk. apply lookup_app_Some in Hk as [Hk|[Hlen' Hk]].
    + rewrite list_lookup_insert_ne; [by apply Hst|].
      apply lookup_lt_Some in Hk. rewrite length_rev in Hk. lia.
    + rewrite length_rev in Hlen', Hk.
      apply list_lookup_singleton_Some in Hk as [Hk ->].
      replace k with (length st) by lia.
      apply list_lookup_insert_eq. lia.
  - by apply chain_push.
  - rewrite (take_S_r _ _ _ Hc), pending_opens_snoc. simpl. by rewrite Hpend.
  - intros a b Hb Hp. destruct (decide (b = n)) as [->|Hne].
    + destruct Hp as (_ & Hb' & _). congruence.
    + apply Hpairs; [lia|done].
  - intros k c Hk Hkc Hbr Hnotin.
    apply not_elem_of_cons in Hnotin as [Hkn Hnotin].
    destruct (Hclosed k c) as (a & b & Hp & Hb & Hab); [lia|done..|].
    exists a, b. repeat split; [apply Hp..|lia|done].
  - intros k c Hk Hcases. apply (Hzero k c Hk).
    destruct Hcases as [Hle|[Hin|Hnb]]; [left; lia| |by right; right].
    apply elem_of_cons in Hin as [->|Hin]; [left; lia|by right; left].
Qed.

Lemma body_other n s st c :
  build_inv code n s st → code !! n = Some c → ¬ is_bracket c →
  build_body code (Z.of_nat n) s = Ok s ∧ build_inv code (S n) s st.
Proof.
  intros [Hjl Hsl Hrep Hch Hpend Hpairs Hclosed Hzero] Hc Hnb.
  assert ((c =? "[")%char = false) as Hno.
  { apply Ascii.eqb_neq. intros ->. apply Hnb. by left. }
  assert ((c =? "]")%char = false) as Hnc.
  { apply Ascii.eqb_neq. intros ->. apply Hnb. by right. }
  unfold build_body. rewrite (load_nat _ _ _ Hc). simpl. rewrite Hno, Hnc.
  split; [done|]. split; try done.
  - by apply (chain_other code n st c).
  - by rewrite (take_S_r _ _ _ Hc), pending_opens_snoc, Hno, Hnc.
  - intros a b Hb Hp. destruct (decide (b = n)) as [->|Hne].
    + destruct Hp as (_ & Hb' & _). rewrite Hc in Hb'.
      injection Hb' as ->. destruct Hnb. by right.
    + apply Hpairs; [lia|done].
  - intros k c' Hk Hkc Hbr Hnotin. destruct (decide (k = n)) as [->|Hne].
    + rewrite Hc in Hkc. by injection Hkc as ->.
    + destruct (Hclosed k c') as (a & b & Hp & Hb & Hab); [lia|done..|].
      exists a, b. repeat split; [apply Hp..|lia|done].
  - intros k c' Hk Hcases. apply (Hzero k c' Hk).
    destruct Hcases as [Hle|[Hin|Hnb']]; [|by right; left|by right; right].
    destruct (decide (k = n)) as [->|Hne]; [|left; lia].
    rewrite Hc in Hk. injection Hk as ->. by right; right.
Qed.

Lemma body_close_empty n s :
  build_inv code n s [] → code !! n = Some "]"%char →
  build_body code (Z.of_nat n) s = BracketError (UnmatchedClose (Z.of_nat n)).
Proof.
  intros [_ _ [Hsp _] _ _ _ _ _] Hc.
  unfold build_body. rewrite (load_nat _ _ _ Hc). simpl.
  by rewrite decide_True.
Qed.

Lemma body_close n s t r :
  build_inv code n s (t :: r) → code !! n = Some "]"%char →
  ∃ s', build_body code (Z.of_nat n) s = Ok s' ∧ build_inv code (S n) s' r.
Proof.
  intros [Hjl Hsl [Hsp Hst] Hch Hpend Hpairs Hclosed Hzero] Hc.
  pose proof (lookup_lt_Some _ _ _ Hc) as Hn.
  pose proof (chain_length _ _ _ Hch) as Hdepth.
  pose proof (chain_top_paired _ _ _ _ Hch Hc) as Hpair.
  pose proof Hch as (Htn & Ht & Hbal & Hr).
  assert (stack s !! length r = Some (Z.of_nat t)) as Htop.
  { apply Hst. simpl. rewrite lookup_app_r; rewrite length_rev; [|done].
    by rewrite Nat.sub_diag. }
  simpl in Hsp, Hdepth.
  unfold build_body. rewrite (load_nat _ _ _ Hc). simpl.
  rewrite decide_False by lia. rewrite Hsp, index_pred by lia.
  rewrite (load_nat _ _ _ Htop). simpl.
  rewrite !index_ssize_t by lia.
  rewrite store_nat by lia. simpl.
  rewrite store_nat by (rewrite length_insert; lia). simpl.
  eexists. split; [reflexivity|]. split; simpl.
  - by rewrite !length_insert.
  - done.
  - split; simpl; [done|]. intros k x Hk. apply Hst. simpl.
    by apply lookup_app_l_Some.
  - by apply (chain_pop code n t r).
  - rewrite (take_S_r _ _ _ Hc), pending_opens_snoc. simpl.
    rewrite <- Hpend. done.
  - intros a b Hb Hp. destruct (decide (b = n)) as [->|Hne].
    + assert (a = t) as ->.
      { destruct Hp as (Ha & _ & Han & Hbal'). by apply (open_before_unique code a t n). }
      split.
      * rewrite list_lookup_insert_ne by lia.
        apply list_lookup_insert_eq. lia.
      * apply list_lookup_insert_eq. rewrite length_insert. lia.
    + assert (b < n)%nat as Hbn by lia.
      destruct (Hpairs a b Hbn Hp) as [Hja Hjb].
      pose proof Hp as (Ha & Hb' & Hab & _).
      assert (a ≠ t) as Hat.
      { intros ->. by apply (paired_close_first code t b n Hp Hbn). }
      assert (b ≠ t) as Hbt by congruence.
      rewrite !list_lookup_insert_ne by lia. done.
  - intros k c Hk Hkc Hbr Hnotin.
    destruct (decide (k = n)) as [->|Hkn]; [exists t, n; eauto|].
    destruct (decide (k = t)) as [->|Hkt]; [exists t, n; eauto|].
    destruct (Hclosed k c) as (a & b & Hp & Hb & Hab); [lia|done..| |].
    { apply not_elem_of_cons. done. }
    exists a, b. repeat split; [apply Hp..|lia|done].
  - intros k c Hk Hcases.
    assert (k ≠ n ∧ k ≠ t) as [Hkn Hkt].
    { destruct Hcases as [Hle|[Hin|Hnb]].
      - lia.
      - pose proof (chain_lt _ _ _ _ Hr Hin). lia.
      - split; intros ->.
        + rewrite Hc in Hk. injection Hk as <-. apply Hnb. by right.
        + rewrite Ht in Hk. injection Hk as <-. apply Hnb. by left. }
    rewrite !list_lookup_insert_ne by lia. apply (Hzero k c Hk).
    destruct Hcases as [Hle|[Hin|Hnb]]; [left; lia| |by right; right].
    right; left. by apply elem_of_cons; right.
Qed.

(** One iteration: either the loop-close at [n] has nothing to close
    and the builder fails there, or the invariant moves to [S n]. *)
Lemma body_cases n s st c :
  build_inv code n s st → code !! n = Some c →
  (unmatched_close code n ∧
   build_body code (Z.of_nat n) s = BracketError (UnmatchedClose (Z.of_nat n))) ∨
  (¬ unmatched_close code n ∧
   ∃ s' st', build_body code (Z.of_nat n) s = Ok s' ∧ build_inv code (S n) s' st').
Proof.
  intros Hinv Hc.
  destruct (Ascii.eqb_spec c "[") as [->|Hno].
  { right. split; [intros [Hc' _]; congruence|].
    destruct (body_open n s st Hinv Hc) as (s' & Hs' & Hinv'). eauto. }
  destruct (Ascii.eqb_spec c "]") as [->|Hnc].
  - destruct st as [|t r].
    + left. split; [|by apply body_close_empty].
      split; [done|]. by rewrite <- (inv_pending _ _ _ _ Hinv).
    + right. split.
      * intros [_ Hp]. rewrite <- (inv_pending _ _ _ _ Hinv) in Hp. done.
      * destruct (body_close n s t r Hinv Hc) as (s' & Hs' & Hinv'). eauto.
  - right. split; [intros [Hc' _]; congruence|].
    destruct (body_other n s st c Hinv Hc) as [Hs' Hinv'];
      [intros [?|?]; done|eauto].
Qed.

Lemma loop_ok k : ∀ n s st,
  build_inv code n s st → (n + k ≤ length code)%nat →
  (∀ j, (n ≤ j < n + k)%nat → ¬ unmatched_close code j) →
  ∃ s' st', build_loop code k (Z.of_nat n) s = Ok s' ∧
            build_inv code (n + k) s' st'.
Proof.
  induction k as [|k IH]; intros n s st Hinv Hk Hnone; simpl.
  - rewrite Nat.add_0_r. eauto.
  - destruct (lookup_lt_is_Some_2 code n) as [c Hc]; [lia|].
    destruct (body_cases n s st c Hinv Hc) as [[Hbad _]|(_ & s' & st' & -> & Hinv')].
    { destruct (Hnone n); [lia|done]. }
    simpl. rewrite index_succ by lia.
    destruct (IH (S n) s' st' Hinv') as (s'' & st'' & Hloop & Hinv''); [lia| |].
    { intros j Hj. apply Hnone. lia. }
    replace (n + S k)%nat with (S n + k)%nat by lia. eauto.
Qed.

Lemma loop_fail k : ∀ n s st j,
  build_inv code n s st → (n + k ≤ length code)%nat → (n ≤ j < n + k)%nat →
  unmatched_close code j →
  (∀ i, (n ≤ i < j)%nat → ¬ unmatched_close code i) →
  build_loop code k (Z.of_nat n) s = BracketError (UnmatchedClose (Z.of_nat j)).
Proof.
  induction k as [|k IH]; intros n s st j Hinv Hk Hj Hbad Hfirst; simpl; [lia|].
  destruct (lookup_lt_is_Some_2 code n) as [c Hc]; [lia|].
  destruct (body_cases n s st c Hinv Hc) as [[Hbad' ->]|(Hgood & s' & st' & -> & Hinv')].
  - simpl. destruct (decide (j = n)) as [->|Hne]; [done|].
    destruct (Hfirst n); [lia|done].
  - simpl. rewrite index_succ by lia.
    assert (j ≠ n) by (intros ->; done).
    apply (IH (S n) s' st' j Hinv'); [lia..|done|].
    intros i Hi. apply Hfirst. lia.
Qed.

Lemma loop_inv k : ∀ n s st s',
  build_inv code n s st → (n + k ≤ length code)%nat →
  build_loop code k (Z.of_nat n) s = Ok s' →
  ∃ st', build_inv code (n + k) s' st'.
Proof.
  induction k as [|k IH]; intros n s st s' Hinv Hk Hloop; simpl in *.
  - injection Hloop as <-. rewrite Nat.add_0_r. eauto.
  - destruct (lookup_lt_is_Some_2 code n) as [c Hc]; [lia|].
    destruct (body_cases n s st c Hinv Hc) as [[_ Hb]|(_ & s1 & st1 & Hb & Hinv1)];
      rewrite Hb in Hloop; simpl in Hloop; [done|].
    rewrite index_succ in Hloop by lia.
    replace (n + S k)%nat with (S n + k)%nat by lia.
    apply (IH (S n) s1 st1 s' Hinv1); [lia|done].
Qed.

(** The top of the stack array, as [build_jumps] reads it after the loop. *)
Lemma inv_top n s t r :
  build_inv code n s (t :: r) →
  sp s ≠ 0 ∧ load (stack s) (to_size_t (sp s - 1)) = Ok (Z.of_nat t).
Proof.
  intros [_ _ [Hsp Hst] (Htn & Ht & _ & Hr) _ _ _ _].
  pose proof (chain_length _ _ _ Hr) as Hdepth.
  apply lookup_lt_Some in Ht.
  simpl in Hsp. split; [lia|].
  rewrite Hsp, index_pred by lia. apply load_nat, Hst. simpl.
  rewrite lookup_app_r; rewrite length_rev; [|done]. by rewrite Nat.sub_diag.
Qed.

Lemma build_jumps_unfold :
  build_jumps junk code =
    s ← build_loop code (length code) (Z.of_nat 0) (build_init junk code);
    if decide (sp s ≠ 0) then
      top ← load (stack s) (to_size_t (sp s - 1));
      BracketError (UnmatchedOpen top)
    else Ok (jumps s).
Proof. unfold build_jumps, code_len. by rewrite Nat2Z.id. Qed.

(** A table that was returned satisfies the invariant with the stack
    empty. *)
Lemma build_jumps_Ok_inv table :
  build_jumps junk code = Ok table →
  ∃ s, build_inv code (length code) s [] ∧ jumps s = table.
Proof.
  rewrite build_jumps_unfold. intros H.
  destruct (build_loop code (length code) (Z.of_nat 0) (build_init junk code)) as [s| |] eqn:Hloop;
    simpl in H; [|done..].
  destruct (loop_inv (length code) 0 _ _ s build_init_inv ltac:(lia) Hloop) as [st Hinv].
  simpl in Hinv. destruct st as [|t r].
  - pose proof (inv_rep _ _ _ _ Hinv) as [Hsp _]. simpl in Hsp.
    rewrite decide_False in H by lia. injection H as <-. eauto.
  - destruct (inv_top (length code) s t r Hinv) as [Hsp Htop].
    rewrite decide_True, Htop in H by done. done.
Qed.

Lemma loop_no_fault k : ∀ n s st,
  build_inv code n s st → (n + k ≤ length code)%nat →
  build_loop code k (Z.of_nat n) s ≠ OutOfBounds.
Proof.
  induction k as [|k IH]; intros n s st Hinv Hk; simpl; [done|].
  destruct (lookup_lt_is_Some_2 code n) as [c Hc]; [lia|].
  destruct (body_cases n s st c Hinv Hc) as [[_ ->]|(_ & s' & st' & -> & Hinv')];
    simpl; [done|].
  rewrite index_succ by lia. apply (IH (S n) s' st' Hinv'). lia.
Qed.

(** [build_jumps] makes no access out of bounds. *)
Lemma build_jumps_no_fault : build_jumps junk code ≠ OutOfBounds.
Proof.
  rewrite build_jumps_unfold.
  destruct (build_loop code (length code) (Z.of_nat 0) (build_init junk code)) as [s| |] eqn:Hloop;
    simpl; [|done|].
  - destruct (loop_inv (length code) 0 _ _ s build_init_inv ltac:(lia) Hloop) as [st Hinv].
    simpl in Hinv. destruct st as [|t r].
    + pose proof (inv_rep _ _ _ _ Hinv) as [Hsp _]. simpl in Hsp.
      by rewrite decide_False by lia.
    + destruct (inv_top (length code) s t r Hinv) as [Hsp Htop].
      by rewrite decide_True, Htop by done.
  - by apply (loop_no_fault (length code) 0 _ [] build_init_inv) in Hloop.
Qed.

(** What the invariant says of the table once the stack is empty. *)
Lemma inv_table s :
  build_inv code (length code) s [] →
  length (jumps s) = (length code) ∧
  (∀ i j, paired code i j →
     jumps s !! i = Some (Z.of_nat j) ∧ jumps s !! j = Some (Z.of_nat i) ∧
     (i < j)%nat) ∧
  (∀ i c, code !! i = Some c → is_bracket c →
     ∃ k, (paired code i k ∨ paired code k i) ∧
          jumps s !! i = Some (Z.of_nat k) ∧ jumps s !! k = Some (Z.of_nat i)) ∧
  (∀ i c, code !! i = Some c → ¬ is_bracket c → jumps s !! i = Some 0).
Proof.
  intros Hinv. split; [apply Hinv|]. split; [|split].
  - intros i j Hp. pose proof Hp as (_ & Hj & Hij & _).
    apply lookup_lt_Some in Hj.
    destruct (inv_pairs _ _ _ _ Hinv i j Hj Hp). done.
  - intros i c Hi Hbr.
    destruct (inv_closed _ _ _ _ Hinv i c) as (a & b & Hp & Hb & [->| ->]);
      [by eapply lookup_lt_Some|done..|by apply not_elem_of_nil| |].
    + exists b. destruct (inv_pairs _ _ _ _ Hinv a b Hb Hp). eauto.
    + exists a. destruct (inv_pairs _ _ _ _ Hinv a b Hb Hp). eauto.
  - intros i c Hi Hnb. apply (inv_zero _ _ _ _ Hinv i c Hi). by right; right.
Qed.

(** Every entry of a returned table is an index of the program. *)
Lemma inv_table_range s i v :
  build_inv code (length code) s [] → jumps s !! i = Some v → 0 ≤ v < Z.of_nat (length code).
Proof.
  intros Hinv Hv.
  destruct (inv_table s Hinv) as (Hl & Hpairs & Hbr & Hz).
  assert (i < length code)%nat as Hi by (rewrite <- Hl; by eapply lookup_lt_Some).
  destruct (lookup_lt_is_Some_2 code i Hi) as [c Hc].
  destruct (is_bracket_dec c) as [Hb|Hnb].
  - destruct (Hbr i c Hc Hb) as (k & _ & Hik & Hki).
    rewrite Hv in Hik. injection Hik as ->.
    apply lookup_lt_Some in Hki. lia.
  - rewrite (Hz i c Hc Hnb) in Hv. injection Hv as <-. lia.
Qed.
End BuilderProofs.

(** ** The jump-table builder: results *)

(** C1. For a program whose brackets are balanced and properly nested,
    [build_jumps] returns a table, of the length of the program, in
    which a loop-open at [i] paired with a loop-close at [j] has
    [table[i] = j], [table[j] = i] and [i < j]; every bracket index [i]
    has a partner [k] with [table[i] = k] and [table[k] = i], that is
    [table[table[i]] = i]; the entries at the other positions are zero. *)
Theorem build_jumps_balanced (junk : nat → Z) (code : list ascii) :
  code_len code < 2 ^ 61 → balanced code →
  ∃ table, build_jumps junk code = Ok table ∧
    length table = length code ∧
    (∀ i j, paired code i j →
       table !! i = Some (Z.of_nat j) ∧ table !! j = Some (Z.of_nat i) ∧
       (i < j)%nat) ∧
    (∀ i c, code !! i = Some c → is_bracket c →
       ∃ k, (paired code i k ∨ paired code k i) ∧
            table !! i = Some (Z.of_nat k) ∧ table !! k = Some (Z.of_nat i)) ∧
    (∀ i c, code !! i = Some c → ¬ is_bracket c → table !! i = Some 0).
Proof.
  intros Hlen Hbal.
  destruct (balanced_from_pending 0 code Hbal) as [Hend Hnone].
  destruct (loop_ok code Hlen (length code) 0 _ [] (build_init_inv junk code Hlen))
    as (s & st & Hloop & Hinv); [lia| |].
  { intros j _ [Hj Hp]. by apply (Hnone j). }
  simpl in Hinv.
  assert (st = []) as ->.
  { apply length_zero_iff_nil. rewrite (inv_pending _ _ _ _ Hinv).
    by rewrite firstn_all. }
  pose proof (inv_rep _ _ _ _ Hinv) as [Hsp _]. simpl in Hsp.
  exists (jumps s). split; [|by apply inv_table].
  rewrite build_jumps_unfold, Hloop. simpl. by rewrite decide_False by lia.
Qed.

Lemma build_jumps_balanced_witness :
  code_len (prog "+[-[.]>]") < 2 ^ 61 ∧ balanced (prog "+[-[.]>]") ∧
  ∃ table, build_jumps (λ _, 7) (prog "+[-[.]>]") = Ok table ∧
    length table = length (prog "+[-[.]>]") ∧
    (∀ i j, paired (prog "+[-[.]>]") i j →
       table !! i = Some (Z.of_nat j) ∧ table !! j = Some (Z.of_nat i) ∧
       (i < j)%nat) ∧
    (∀ i c, prog "+[-[.]>]" !! i = Some c → is_bracket c →
       ∃ k, (paired (prog "+[-[.]>]") i k ∨ paired (prog "+[-[.]>]") k i) ∧
            table !! i = Some (Z.of_nat k) ∧ table !! k = Some (Z.of_nat i)) ∧
    (∀ i c, prog "+[-[.]>]" !! i = Some c → ¬ is_bracket c → table !! i = Some 0).
Proof.
  split; [reflexivity|]. split; [reflexivity|].
  apply (build_jumps_balanced (λ _, 7) (prog "+[-[.]>]")); reflexivity.
Defined.

(** C2. When the loop-close at index [k] is the first one that no
    unmatched loop-open precedes, the scan passes the positions before
    [k], fails in the iteration at [k], and [build_jumps] returns no
    table but the error [UnmatchedClose k]. *)
Theorem build_jumps_unmatched_close (junk : nat → Z) (code : list ascii) (k : nat) :
  code_len code < 2 ^ 61 →
  unmatched_close code k →
  (∀ k', (k' < k)%nat → ¬ unmatched_close code k') →
  (∃ s, build_loop code k 0 (build_init junk code) = Ok s ∧
        build_body code (Z.of_nat k) s = BracketError (UnmatchedClose (Z.of_nat k))) ∧
  build_jumps junk code = BracketError (UnmatchedClose (Z.of_nat k)).
Proof.
  intros Hlen Hbad Hfirst.
  pose proof Hbad as [Hk _]. pose proof (lookup_lt_Some _ _ _ Hk) as Hkn.
  split.
  - destruct (loop_ok code Hlen k 0 _ [] (build_init_inv junk code Hlen))
      as (s & st & Hloop & Hinv); [lia| |].
    { intros j Hj. apply Hfirst. lia. }
    exists s. split; [done|]. simpl in Hinv.
    destruct (body_cases code Hlen k s st _ Hinv Hk) as [[_ Hb]|[Hgood _]]; done.
  - rewrite build_jumps_unfold.
    rewrite (loop_fail code Hlen (length code) 0 _ [] k (build_init_inv junk code Hlen));
      [done|lia|lia|done|].
    intros i Hi. apply Hfirst. lia.
Qed.

Lemma build_jumps_unmatched_close_witness :
  code_len (prog "[]]+]") < 2 ^ 61 ∧
  unmatched_close (prog "[]]+]") 2 ∧
  (∀ k', (k' < 2)%nat → ¬ unmatched_close (prog "[]]+]") k') ∧
  (∃ s, build_loop (prog "[]]+]") 2 0 (build_init (λ _, 7) (prog "[]]+]")) = Ok s ∧
        build_body (prog "[]]+]") (Z.of_nat 2) s =
          BracketError (UnmatchedClose (Z.of_nat 2))) ∧
  build_jumps (λ _, 7) (prog "[]]+]") = BracketError (UnmatchedClose (Z.of_nat 2)).
Proof.
  assert (∀ k', (k' < 2)%nat → ¬ unmatched_close (prog "[]]+]") k') as Hfirst.
  { intros [|[|k']] Hk' [H1 H2]; [discriminate H1|discriminate H2|lia]. }
  split; [reflexivity|]. split; [split; reflexivity|]. split; [exact Hfirst|].
  apply (build_jumps_unmatched_close (λ _, 7) (prog "[]]+]") 2);
    [reflexivity|split; reflexivity|exact Hfirst].
Defined.

(** C3. When no loop-close is unmatched and [m] is the last loop-open
    that is never closed, the scan passes all the positions of the
    program, the stack is then not empty with [m] on its top, and
    [build_jumps] returns the error [UnmatchedOpen m]. *)
Theorem build_jumps_unmatched_open (junk : nat → Z) (code : list ascii) (m : nat) :
  code_len code < 2 ^ 61 →
  (∀ k, ¬ unmatched_close code k) →
  innermost_unmatched_open code m →
  (∃ s, build_loop code (length code) 0 (build_init junk code) = Ok s ∧
        sp s ≠ 0 ∧
        load (stack s) (to_size_t (sp s - 1)) = Ok (Z.of_nat m)) ∧
  build_jumps junk code = BracketError (UnmatchedOpen (Z.of_nat m)).
Proof.
  intros Hlen Hnone [[Hm Hopen] Hlast].
  destruct (loop_ok code Hlen (length code) 0 _ [] (build_init_inv junk code Hlen))
    as (s & st & Hloop & Hinv); [lia|by intros j _| ].
  simpl in Hinv.
  assert (∃ r, st = m :: r) as [r ->].
  { destruct st as [|t r].
    - destruct (inv_closed _ _ _ _ Hinv m "["%char) as (a & b & Hp & Hb & [->| ->]);
        [by eapply lookup_lt_Some|done|by left|by apply not_elem_of_nil| |].
      + by destruct (Hopen b).
      + destruct Hp as (_ & Hb' & _). congruence.
    - exists r. f_equal.
      pose proof (inv_chain _ _ _ _ Hinv) as Hch.
      pose proof Hch as (Htn & Ht & Hbal & Hr).
      assert (t ≤ m)%nat as Htm.
      { apply Hlast. split; [done|]. intros j Hp.
        pose proof Hp as (_ & Hj & _). apply lookup_lt_Some in Hj.
        by apply (paired_close_first code t j (length code) Hp Hj). }
      destruct (decide (t = m)) as [|Hne]; [done|]. exfalso.
      destruct (inv_closed _ _ _ _ Hinv m "["%char) as (a & b & Hp & Hb & [->| ->]);
        [by eapply lookup_lt_Some|done|by left| | |].
      + intros Hin. apply elem_of_cons in Hin as [->|Hin]; [done|].
        pose proof (chain_lt _ _ _ _ Hr Hin). lia.
      + by destruct (Hopen b).
      + destruct Hp as (_ & Hb' & _). congruence. }
  destruct (inv_top code Hlen _ s m r Hinv) as [Hsp Htop].
  split; [eauto|].
  rewrite build_jumps_unfold, Hloop. simpl.
  by rewrite decide_True, Htop by done.
Qed.

Lemma build_jumps_unmatched_open_witness :
  code_len (prog "[[]+[") < 2 ^ 61 ∧
  (∀ k, ¬ unmatched_close (prog "[[]+[") k) ∧
  innermost_unmatched_open (prog "[[]+[") 4 ∧
  (∃ s, build_loop (prog "[[]+[") (length (prog "[[]+[")) 0
          (build_init (λ _, 7) (prog "[[]+[")) = Ok s ∧
        sp s ≠ 0 ∧
        load (stack s) (to_size_t (sp s - 1)) = Ok (Z.of_nat 4)) ∧
  build_jumps (λ _, 7) (prog "[[]+[") = BracketError (UnmatchedOpen (Z.of_nat 4)).
Proof.
  assert (∀ k, ¬ unmatched_close (prog "[[]+[") k) as Hnone.
  { intros [|[|[|[|[|k]]]]] [H1 H2]; try discriminate H1; discriminate H2. }
  assert (innermost_unmatched_open (prog "[[]+[") 4) as Hm.
  { split; [split; [reflexivity|]|].
    - intros j (_ & Hj & Hlt & _).
      apply lookup_lt_Some in Hj. simpl in Hj. lia.
    - intros i [Hi _]. apply lookup_lt_Some in Hi. simpl in Hi. lia. }
  split; [reflexivity|]. split; [exact Hnone|]. split; [exact Hm|].
  apply (build_jumps_unmatched_open (λ _, 7) (prog "[[]+[") 4);
    [reflexivity|exact Hnone|exact Hm].
Defined.

(** ** The tape *)

Lemma zero_fill_spec remaining p dst :
  0 ≤ p → 0 ≤ remaining < SIZE_MODULUS →
  p + remaining = Z.of_nat (length dst) →
  zero_fill remaining p dst =
    Ok (take (Z.to_nat p) dst ++ replicate (Z.to_nat remaining) 0).
Proof.
  funelim (zero_fill remaining p dst); intros Hp Hrem Hlen.
  - clear Heqcall Heq. set (chunk := if decide (remaining < sizeof_zero_block)
                      then remaining else sizeof_zero_block) in *.
    assert (0 < chunk ∧ chunk ≤ remaining ∧ chunk ≤ 4096) as (Hc0 & Hc1 & Hc2).
    { unfold chunk, sizeof_zero_block. destruct (decide (remaining < 4096)); lia. }
    clearbody chunk. cbv zeta.
    rewrite (to_size_t_small (remaining - chunk)) in * by lia.
    unfold memcpy. rewrite decide_True; last first.
    { unfold zero_block. rewrite length_replicate. lia. }
    simpl. rewrite H; [|lia|lia|].
    + f_equal. rewrite Z2Nat.inj_add by lia.
      rewrite take_app_add'; last first.
      { rewrite length_take. lia. }
      unfold zero_block. rewrite take_replicate.
      rewrite take_app_length'; last first.
      { rewrite length_replicate. lia. }
      rewrite <- app_assoc. f_equal. rewrite <- replicate_add. f_equal. lia.
    + rewrite !length_app, length_take, length_take, length_drop.
      unfold zero_block. rewrite length_replicate. lia.
  - assert (remaining = 0) as -> by lia. simpl.
    rewrite take_ge by lia. by rewrite app_nil_r.
Qed.

Lemma tape_init_spec junk n :
  0 ≤ n < SIZE_MODULUS →
  tape_init junk n =
    Ok (Tape (replicate (Z.to_nat (if decide (n = 0) then 1 else n)) 0) 0
             (if decide (n = 0) then 1 else n)).
Proof.
  intros Hn. unfold tape_init.
  set (l := if decide (n = 0) then 1 else n).
  assert (1 ≤ l < SIZE_MODULUS) as Hl.
  { unfold l, SIZE_MODULUS in *. case_decide; lia. }
  clearbody l. rewrite zero_fill_spec; [done|lia..|].
  unfold malloc. rewrite length_fmap, length_seq, Z.div_1_r. lia.
Qed.

Lemma tape_ok_cell m :
  tape_ok (tp m) → ∃ v, cell_at_cursor m v.
Proof.
  intros (Hl & Hp & Hlen). unfold cell_at_cursor, load.
  rewrite decide_True by lia.
  destruct (lookup_lt_is_Some_2 (tape (tp m)) (Z.to_nat (pos (tp m)))) as [v ->];
    [lia|eauto].
Qed.

Lemma cell_in_block m v :
  cell_at_cursor m v →
  0 ≤ pos (tp m) ∧ pos (tp m) < Z.of_nat (length (tape (tp m))) ∧
  tape (tp m) !! Z.to_nat (pos (tp m)) = Some v.
Proof.
  unfold cell_at_cursor, load. case_decide; [|done].
  destruct (tape (tp m) !! Z.to_nat (pos (tp m))) as [x|] eqn:Hx; [|done].
  intros [= ->]. apply lookup_lt_Some in Hx. repeat split; [done|lia].
Qed.

Lemma store_at_cursor m v x :
  cell_at_cursor m v →
  store (tape (tp m)) (pos (tp m)) x =
    Ok (<[Z.to_nat (pos (tp m)) := x]> (tape (tp m))).
Proof.
  intros Hv. apply cell_in_block in Hv as (H0 & Hlt & _).
  unfold store. by rewrite decide_True.
Qed.

Lemma cell_after_store m v x :
  cell_at_cursor m v →
  cell_at_cursor (set_cells m (<[Z.to_nat (pos (tp m)) := x]> (tape (tp m)))) x.
Proof.
  intros Hv. apply cell_in_block in Hv as (H0 & Hlt & _).
  unfold cell_at_cursor, load. simpl. rewrite decide_True by done.
  rewrite list_lookup_insert_eq by lia. done.
Qed.

(** ** The execution engine: one instruction *)

(** C5. On a tape of length [L >= 1] with the cursor in [0 .. L-1],
    move-right puts the cursor at [0] from [L-1] and one cell further
    otherwise, move-left puts it at [L-1] from [0] and one cell back
    otherwise; both return normally and change nothing else. *)
Theorem cursor_wraps (jumps : list Z) (ip : Z) (m : machine) :
  1 ≤ len (tp m) < SIZE_MODULUS →
  0 ≤ pos (tp m) ≤ len (tp m) - 1 →
  dispatch jumps ">" ip m =
    Ok (ip, set_pos m (if decide (pos (tp m) = len (tp m) - 1) then 0
                       else pos (tp m) + 1)) ∧
  dispatch jumps "<" ip m =
    Ok (ip, set_pos m (if decide (pos (tp m) = 0) then len (tp m) - 1
                       else pos (tp m) - 1)).
Proof.
  intros Hl Hp. unfold dispatch. simpl. split.
  - rewrite (to_size_t_small (pos (tp m) + 1)) by lia.
    destruct (decide (pos (tp m) = len (tp m) - 1)).
    + by rewrite decide_True by lia.
    + by rewrite decide_False by lia.
  - destruct (decide (pos (tp m) = 0)).
    + by rewrite to_size_t_small by lia.
    + by rewrite to_size_t_small by lia.
Qed.

Lemma cursor_wraps_witness :
  let m := Machine (Tape [5; 6; 7] 2 3) [] [] in
  1 ≤ len (tp m) < SIZE_MODULUS ∧
  0 ≤ pos (tp m) ≤ len (tp m) - 1 ∧
  dispatch [] ">" 0 m = Ok (0, Machine (Tape [5; 6; 7] 0 3) [] []) ∧
  dispatch [] "<" 0 m = Ok (0, Machine (Tape [5; 6; 7] 1 3) [] []).
Proof.
  intros m.
  assert (1 ≤ len (tp m) < SIZE_MODULUS) as Hl by (split; reflexivity || discriminate).
  assert (0 ≤ pos (tp m) ≤ len (tp m) - 1) as Hp by (split; discriminate).
  split; [exact Hl|]. split; [exact Hp|].
  exact (cursor_wraps [] 0 m Hl Hp).
Defined.

Lemma set_cells_restore m v x :
  cell_at_cursor m v →
  set_cells (set_cells m (<[Z.to_nat (pos (tp m)) := x]> (tape (tp m))))
    (<[Z.to_nat (pos (tp m)) := v]> (<[Z.to_nat (pos (tp m)) := x]> (tape (tp m)))) = m.
Proof.
  intros Hv. apply cell_in_block in Hv as (_ & _ & Hv).
  destruct m as [[cells p l] i o]. unfold set_cells. simpl in *.
  by rewrite list_insert_insert_eq, list_insert_id.
Qed.

(** C6. The cell at the cursor holding the byte [v], increment leaves
    [(v + 1) mod 256] in it, which is 0 for 255, decrement leaves
    [(v - 1) mod 256], which is 255 for 0, and a decrement that follows
    the increment gives back the state before the increment. *)
Theorem cell_arithmetic_mod_256 (jumps : list Z) (ip : Z) (m : machine) (v : Z) :
  cell_at_cursor m v → is_byte v →
  ∃ up down,
    dispatch jumps "+" ip m = Ok (ip, up) ∧
    cell_at_cursor up ((v + 1) mod 256) ∧
    (v = 255 → cell_at_cursor up 0) ∧
    dispatch jumps "-" ip m = Ok (ip, down) ∧
    cell_at_cursor down ((v - 1) mod 256) ∧
    (v = 0 → cell_at_cursor down 255) ∧
    dispatch jumps "-" ip up = Ok (ip, m).
Proof.
  intros Hv Hbyte.
  exists (set_cells m (<[Z.to_nat (pos (tp m)) := to_uchar (v + 1)]> (tape (tp m)))),
         (set_cells m (<[Z.to_nat (pos (tp m)) := to_uchar (v - 1)]> (tape (tp m)))).
  pose proof (cell_after_store m v (to_uchar (v + 1)) Hv) as Hup.
  pose proof (cell_after_store m v (to_uchar (v - 1)) Hv) as Hdown.
  assert (dispatch jumps "+" ip m =
          Ok (ip, set_cells m (<[Z.to_nat (pos (tp m)) := to_uchar (v + 1)]> (tape (tp m)))))
    as Hplus.
  { unfold dispatch. simpl. rewrite Hv. simpl.
    by rewrite (store_at_cursor m v). }
  assert (dispatch jumps "-" ip m =
          Ok (ip, set_cells m (<[Z.to_nat (pos (tp m)) := to_uchar (v - 1)]> (tape (tp m)))))
    as Hminus.
  { unfold dispatch. simpl. rewrite Hv. simpl.
    by rewrite (store_at_cursor m v). }
  repeat split; try done.
  - intros ->. exact Hup.
  - intros ->. exact Hdown.
  - unfold dispatch. simpl.
    pose proof Hup as Hload. unfold cell_at_cursor in Hload. simpl in Hload.
    rewrite Hload. simpl.
    pose proof (store_at_cursor _ _ (to_uchar (to_uchar (v + 1) - 1)) Hup) as Hst.
    simpl in Hst. rewrite Hst. simpl.
    replace (to_uchar (to_uchar (v + 1) - 1)) with v.
    + by rewrite (set_cells_restore m v).
    + unfold to_uchar, is_byte in *.
      destruct (decide (v = 255)) as [->|Hne]; [done|].
      rewrite (Z.mod_small (v + 1)) by lia. rewrite Z.mod_small; lia.
Qed.

Lemma cell_arithmetic_mod_256_witness :
  let m := Machine (Tape [255; 0] 0 2) [] [] in
  cell_at_cursor m 255 ∧ is_byte 255 ∧
  ∃ up down,
    dispatch [] "+" 0 m = Ok (0, up) ∧
    cell_at_cursor up ((255 + 1) mod 256) ∧
    (255 = 255 → cell_at_cursor up 0) ∧
    dispatch [] "-" 0 m = Ok (0, down) ∧
    cell_at_cursor down ((255 - 1) mod 256) ∧
    (255 = 0 → cell_at_cursor down 255) ∧
    dispatch [] "-" 0 up = Ok (0, m).
Proof.
  intros m.
  assert (cell_at_cursor m 255) as Hv by reflexivity.
  assert (is_byte 255) as Hb by (split; [discriminate|reflexivity]).
  split; [exact Hv|]. split; [exact Hb|].
  exact (cell_arithmetic_mod_256 [] 0 m 255 Hv Hb).
Defined.

(** C7. The input instruction takes one byte off the input stream and
    leaves it in the cell at the cursor; at the end of the stream it
    leaves 0 there and the stream stays empty.  In both cases it
    returns normally, the cursor and the output being as before. *)
Theorem input_reads_byte_or_zero (jumps : list Z) (ip : Z) (m : machine) (v : Z) :
  cell_at_cursor m v →
  (stdin m = [] →
   ∃ m', dispatch jumps "," ip m = Ok (ip, m') ∧ cell_at_cursor m' 0 ∧
         stdin m' = [] ∧ stdout m' = stdout m ∧
         pos (tp m') = pos (tp m) ∧ len (tp m') = len (tp m)) ∧
  (∀ b rest, stdin m = b :: rest → is_byte b →
   ∃ m', dispatch jumps "," ip m = Ok (ip, m') ∧ cell_at_cursor m' b ∧
         stdin m' = rest ∧ stdout m' = stdout m ∧
         pos (tp m') = pos (tp m) ∧ len (tp m') = len (tp m)).
Proof.
  intros Hv. split.
  - intros Hin. unfold dispatch. simpl. rewrite Hin. simpl.
    rewrite (store_at_cursor m v) by done. simpl.
    eexists. split; [reflexivity|]. simpl. repeat split.
    pose proof (cell_after_store m v 0 Hv) as H. exact H.
  - intros b rest Hin Hb. unfold dispatch. simpl. rewrite Hin. simpl.
    assert (to_uchar b = b) as Hbb by (apply Z.mod_small; exact Hb).
    rewrite Hbb. rewrite decide_False by (unfold EOF, is_byte in *; lia).
    rewrite Hbb. rewrite (store_at_cursor m v) by done. simpl.
    eexists. split; [reflexivity|]. simpl. repeat split.
    pose proof (cell_after_store m v b Hv) as H. exact H.
Qed.

Lemma input_reads_byte_or_zero_witness :
  let m := Machine (Tape [9; 0] 0 2) [65] [] in
  cell_at_cursor m 9 ∧
  ∃ m', dispatch [] "," 0 m = Ok (0, m') ∧ cell_at_cursor m' 65 ∧
        stdin m' = [] ∧ stdout m' = stdout m ∧
        pos (tp m') = pos (tp m) ∧ len (tp m') = len (tp m).
Proof.
  intros m.
  assert (cell_at_cursor m 9) as Hv by reflexivity.
  split; [exact Hv|].
  refine (proj2 (input_reads_byte_or_zero [] 0 m 9 Hv) 65 [] eq_refl _).
  split; [discriminate|reflexivity].
Defined.

(** The instruction pointer at the end of the [switch]. *)
Lemma dispatch_ip jumps c ip m v :
  cell_at_cursor m v →
  (jump_taken c v → ∀ k, load jumps ip = Ok k →
     dispatch jumps c ip m = Ok (to_size_t k, m)) ∧
  (¬ jump_taken c v → ∃ m', dispatch jumps c ip m = Ok (ip, m')).
Proof.
  intros Hv. pose proof Hv as Hload. unfold cell_at_cursor in Hload. split.
  - intros [[-> ->]|[-> Hnz]] k Hk; unfold dispatch; simpl; rewrite Hload; simpl.
    + by rewrite Hk.
    + rewrite decide_True by done. by rewrite Hk.
  - intros Hno. unfold dispatch.
    destruct (c =? "+")%char.
    { rewrite Hload. simpl. rewrite (store_at_cursor m v) by done. simpl. eauto. }
    destruct (c =? "-")%char.
    { rewrite Hload. simpl. rewrite (store_at_cursor m v) by done. simpl. eauto. }
    destruct (c =? ">")%char; [case_decide; eauto|].
    destruct (c =? "<")%char; [case_decide; eauto|].
    destruct (c =? ".")%char; [rewrite Hload; simpl; eauto|].
    destruct (c =? ",")%char.
    { destruct (getchar (stdin m)) as [ch rest].
      rewrite (store_at_cursor m v) by done. simpl. eauto. }
    destruct (Ascii.eqb_spec c "[") as [->|_].
    { rewrite Hload. simpl. case_decide as Hz; [|eauto].
      destruct Hno. by left. }
    destruct (Ascii.eqb_spec c "]") as [->|_]; [|eauto].
    rewrite Hload. simpl. case_decide as Hz; [|eauto].
    destruct Hno. by right.
Qed.

Section EngineProofs.
Variable junk : nat → Z.
Variable code : list ascii.
Variable table : list Z.
Hypothesis Hlen : code_len code < 2 ^ 61.
Hypothesis Htable : build_jumps junk code = Ok table.

Lemma table_length : length table = length code.
Proof.
  destruct (build_jumps_Ok_inv junk code Hlen table Htable) as (s & Hinv & <-).
  apply Hinv.
Qed.

Lemma table_bracket i c :
  code !! i = Some c → is_bracket c →
  ∃ k, (paired code i k ∨ paired code k i) ∧ (k < length code)%nat ∧
       table !! i = Some (Z.of_nat k) ∧ table !! k = Some (Z.of_nat i).
Proof.
  intros Hc Hb.
  destruct (build_jumps_Ok_inv junk code Hlen table Htable) as (s & Hinv & <-).
  destruct (inv_table code s Hinv) as (Hl & _ & Hbr & _).
  destruct (Hbr i c Hc Hb) as (k & Hp & Hik & Hki).
  exists k. repeat split; try done.
  rewrite <- Hl. by eapply lookup_lt_Some.
Qed.

Lemma table_range i v : table !! i = Some v → 0 ≤ v < Z.of_nat (length code).
Proof.
  destruct (build_jumps_Ok_inv junk code Hlen table Htable) as (s & Hinv & <-).
  by apply inv_table_range.
Qed.

Lemma index_next (k : nat) :
  (k < length code)%nat → to_size_t (Z.of_nat k + 1) = Z.of_nat k + 1.
Proof.
  intros Hk. apply to_size_t_small. unfold code_len, SIZE_MODULUS in *. lia.
Qed.

Lemma exec_loop_step fuel (ip : nat) m ip' m' :
  (ip < length code)%nat →
  exec_body code table (Z.of_nat ip) m = Ok (ip', m') →
  exec_loop code table (S fuel) (Z.of_nat ip) m = exec_loop code table fuel ip' m'.
Proof.
  intros Hip Hbody. simpl.
  rewrite decide_True by (unfold code_len; lia). by rewrite Hbody.
Qed.
End EngineProofs.

(** C4. With the table of [build_jumps], one iteration of the loop of
    [exec] at [ip], the cell at the cursor holding [v], leaves the
    instruction pointer as follows.  When the jump is taken (loop-open
    with [v = 0], loop-close with [v <> 0]), the table gives the index
    [k] of the partner of [ip], the state is unchanged and the
    iteration ends with the instruction pointer at [k + 1]: the loop
    goes on from [k + 1], the bracket at [k] is not dispatched.  In all
    the other cases the iteration ends with the pointer at [ip + 1]. *)
Theorem jump_lands_after_partner (junk : nat → Z) (code : list ascii)
    (table : list Z) (ip : nat) (c : ascii) (m : machine) (v : Z) :
  code_len code < 2 ^ 61 →
  build_jumps junk code = Ok table →
  code !! ip = Some c →
  cell_at_cursor m v →
  (jump_taken c v →
   ∃ k, (paired code ip k ∨ paired code k ip) ∧
        table !! ip = Some (Z.of_nat k) ∧
        exec_body code table (Z.of_nat ip) m = Ok (Z.of_nat k + 1, m) ∧
        ∀ fuel, exec_loop code table (S fuel) (Z.of_nat ip) m =
                exec_loop code table fuel (Z.of_nat k + 1) m) ∧
  (¬ jump_taken c v →
   ∃ m', exec_body code table (Z.of_nat ip) m = Ok (Z.of_nat ip + 1, m') ∧
         ∀ fuel, exec_loop code table (S fuel) (Z.of_nat ip) m =
                 exec_loop code table fuel (Z.of_nat ip + 1) m').
Proof.
  intros Hlen Htable Hc Hv.
  pose proof (lookup_lt_Some _ _ _ Hc) as Hip.
  destruct (dispatch_ip table c (Z.of_nat ip) m v Hv) as [Hjump Hnext].
  split.
  - intros Hj.
    assert (is_bracket c) as Hb by (destruct Hj as [[-> _]|[-> _]]; [by left|by right]).
    destruct (table_bracket junk code table Hlen Htable ip c Hc Hb)
      as (k & Hp & Hk & Hik & Hki).
    assert (exec_body code table (Z.of_nat ip) m = Ok (Z.of_nat k + 1, m)) as Hbody.
    { unfold exec_body. rewrite (load_nat _ _ _ Hc). simpl.
      rewrite (Hjump Hj (Z.of_nat k) (load_nat _ _ _ Hik)). simpl.
      rewrite (to_size_t_small (Z.of_nat k)) by (unfold code_len, SIZE_MODULUS in *; lia).
      by rewrite (index_next code Hlen k Hk). }
    exists k. repeat split; try done.
    intros fuel. by apply exec_loop_step.
  - intros Hno. destruct (Hnext Hno) as [m' Hm'].
    assert (exec_body code table (Z.of_nat ip) m = Ok (Z.of_nat ip + 1, m')) as Hbody.
    { unfold exec_body. rewrite (load_nat _ _ _ Hc). simpl. rewrite Hm'. simpl.
      by rewrite (index_next code Hlen ip Hip). }
    exists m'. split; [done|]. intros fuel. by apply exec_loop_step.
Qed.

Lemma jump_lands_after_partner_witness :
  let code := prog "+[-]." in
  let table := [0; 3; 0; 1; 0] in
  let m := Machine (Tape [2; 0] 0 2) [] [] in
  code_len code < 2 ^ 61 ∧
  build_jumps (λ _, 7) code = Ok table ∧
  code !! 3%nat = Some "]"%char ∧
  cell_at_cursor m 2 ∧
  jump_taken "]" 2 ∧
  ∃ k, (paired code 3 k ∨ paired code k 3) ∧
       table !! 3%nat = Some (Z.of_nat k) ∧
       exec_body code table (Z.of_nat 3) m = Ok (Z.of_nat k + 1, m) ∧
       ∀ fuel, exec_loop code table (S fuel) (Z.of_nat 3) m =
               exec_loop code table fuel (Z.of_nat k + 1) m.
Proof.
  intros code table m.
  assert (jump_taken "]" 2) as Hj by (right; split; [reflexivity|discriminate]).
  split; [reflexivity|]. split; [reflexivity|]. split; [reflexivity|].
  split; [reflexivity|]. split; [exact Hj|].
  exact (proj1 (jump_lands_after_partner (λ _, 7) code table 3 "]" m 2
                  eq_refl eq_refl eq_refl eq_refl) Hj).
Defined.

(** ** The execution engine: whole runs *)

(** C8. When [build_jumps] fails, [exec] returns without entering its
    loop: the state it returns is the state it was given (tape, cursor,
    input not yet read, output written), whatever the fuel. *)
Theorem exec_aborts_untouched (junk : nat → Z) (code : list ascii)
    (e : match_error) (fuel : nat) (m : machine) :
  build_jumps junk code = BracketError e →
  exec junk code fuel m = Aborted e m.
Proof. intros H. unfold exec. by rewrite H. Qed.

Lemma exec_aborts_untouched_witness :
  let m := Machine (Tape [0; 0; 0] 0 3) [65; 66] [] in
  build_jumps (λ _, 7) (prog ",.]") = BracketError (UnmatchedClose 2) ∧
  exec (λ _, 7) (prog ",.]") 100 m = Aborted (UnmatchedClose 2) m.
Proof.
  intros m. split; [reflexivity|].
  exact (exec_aborts_untouched (λ _, 7) (prog ",.]") (UnmatchedClose 2) 100 m eq_refl).
Defined.

(** C9. For the empty program the driver asks for a tape of length 1,
    and [tape_init] makes a request of 0 a tape of length 1 as well;
    [build_jumps] returns the empty table; the run finishes, with no
    iteration of the loop allowed ([fuel = 0]) as with any number, the
    tape being one zero cell, the output empty and the input unread. *)
Theorem empty_program_runs (junk : nat → Z) (fuel : nat) (input : list Z) :
  code_len [] = 0 ∧
  tape_init junk 0 = Ok (Tape [0] 0 1) ∧
  tape_init junk 1 = Ok (Tape [0] 0 1) ∧
  build_jumps junk [] = Ok [] ∧
  exec_loop [] [] 0 0 (Machine (Tape [0] 0 1) input []) =
    Finished (Machine (Tape [0] 0 1) input []) ∧
  main junk [] fuel input = Finished (Machine (Tape [0] 0 1) input []).
Proof.
  assert (tape_init junk 0 = Ok (Tape [0] 0 1)) as H0.
  { by rewrite tape_init_spec. }
  assert (tape_init junk 1 = Ok (Tape [0] 0 1)) as H1.
  { by rewrite tape_init_spec. }
  repeat split; try done.
  unfold main. simpl. rewrite H1. unfold exec. simpl. by destruct fuel.
Qed.

(** ** The cursor stays on the tape *)

Lemma tape_ok_set_cells m x :
  tape_ok (tp m) →
  tape_ok (tp (set_cells m (<[Z.to_nat (pos (tp m)) := x]> (tape (tp m))))).
Proof.
  intros (Hl & Hp & Hlen). unfold tape_ok. simpl. by rewrite length_insert.
Qed.

Lemma tape_ok_set_pos m p :
  tape_ok (tp m) → 0 ≤ p < len (tp m) → tape_ok (tp (set_pos m p)).
Proof. intros (Hl & Hp & Hlen) Hp'. unfold tape_ok. simpl. done. Qed.

(** The [switch] of [exec] on a well-formed tape: no access out of
    bounds, the tape stays well-formed, and the instruction pointer is
    left alone or set from the table. *)
Lemma dispatch_safe jumps c ip m :
  tape_ok (tp m) → (∃ k, load jumps ip = Ok k) →
  ∃ ip' m', dispatch jumps c ip m = Ok (ip', m') ∧
            tape_ok (tp m') ∧ len (tp m') = len (tp m) ∧
            (ip' = ip ∨ ∃ k, load jumps ip = Ok k ∧ ip' = to_size_t k).
Proof.
  intros Hok [k Hk].
  destruct (tape_ok_cell m Hok) as [v Hv].
  pose proof Hv as Hload. unfold cell_at_cursor in Hload.
  pose proof Hok as (Hl & Hp & Hlen).
  unfold dispatch.
  destruct (c =? "+")%char.
  { rewrite Hload. simpl. rewrite (store_at_cursor m v) by done. simpl.
    eexists _, _. split; [reflexivity|]. split; [by apply tape_ok_set_cells|].
    split; [done|by left]. }
  destruct (c =? "-")%char.
  { rewrite Hload. simpl. rewrite (store_at_cursor m v) by done. simpl.
    eexists _, _. split; [reflexivity|]. split; [by apply tape_ok_set_cells|].
    split; [done|by left]. }
  destruct (c =? ">")%char.
  { rewrite (to_size_t_small (pos (tp m) + 1)) by lia.
    case_decide; eexists _, _; (split; [reflexivity|]);
      (split; [apply tape_ok_set_pos; [done|lia]|]); split; done || by left. }
  destruct (c =? "<")%char.
  { case_decide; rewrite to_size_t_small by lia; eexists _, _;
      (split; [reflexivity|]); (split; [apply tape_ok_set_pos; [done|lia]|]);
      split; done || by left. }
  destruct (c =? ".")%char.
  { rewrite Hload. simpl. eexists _, _. split; [reflexivity|]. simpl.
    split; [done|]. split; [done|by left]. }
  destruct (c =? ",")%char.
  { destruct (getchar (stdin m)) as [ch rest].
    rewrite (store_at_cursor m v) by done. simpl.
    eexists _, _. split; [reflexivity|]. simpl.
    split; [|split; [done|by left]].
    unfold tape_ok. simpl. by rewrite length_insert. }
  destruct (c =? "[")%char.
  { rewrite Hload. simpl. case_decide.
    - rewrite Hk. simpl. eexists _, _. split; [reflexivity|]. eauto 10.
    - eexists _, _. split; [reflexivity|]. eauto. }
  destruct (c =? "]")%char.
  { rewrite Hload. simpl. case_decide.
    - rewrite Hk. simpl. eexists _, _. split; [reflexivity|]. eauto 10.
    - eexists _, _. split; [reflexivity|]. eauto. }
  eexists _, _. split; [reflexivity|]. eauto.
Qed.

Section EngineSafety.
Variable junk : nat → Z.
Variable code : list ascii.
Variable table : list Z.
Hypothesis Hlen : code_len code < 2 ^ 61.
Hypothesis Htable : build_jumps junk code = Ok table.

Lemma exec_body_safe (ip : nat) m :
  (ip < length code)%nat → tape_ok (tp m) →
  ∃ (ip' : nat) m', exec_body code table (Z.of_nat ip) m = Ok (Z.of_nat ip', m') ∧
                    (ip' ≤ length code)%nat ∧ tape_ok (tp m').
Proof.
  intros Hip Hok.
  destruct (lookup_lt_is_Some_2 code ip Hip) as [c Hc].
  destruct (lookup_lt_is_Some_2 table ip) as [k Hk].
  { by rewrite (table_length junk code table Hlen Htable). }
  pose proof (table_range junk code table Hlen Htable ip k Hk) as Hrange.
  destruct (dispatch_safe table c (Z.of_nat ip) m Hok) as (ip' & m' & Hd & Hok' & _ & Hip').
  { exists k. by apply load_nat. }
  unfold exec_body. rewrite (load_nat _ _ _ Hc). simpl. rewrite Hd. simpl.
  destruct Hip' as [->|(k' & Hk' & ->)].
  - exists (S ip), m'. rewrite (index_next code Hlen ip Hip).
    split; [f_equal; f_equal; lia|]. split; [lia|done].
  - rewrite (load_nat _ _ _ Hk) in Hk'. injection Hk' as <-.
    exists (S (Z.to_nat k)), m'.
    rewrite (to_size_t_small k) by (unfold code_len, SIZE_MODULUS in *; lia).
    rewrite to_size_t_small by (unfold code_len, SIZE_MODULUS in *; lia).
    split; [f_equal; f_equal; lia|]. split; [lia|done].
Qed.

Lemma exec_loop_safe fuel : ∀ (ip : nat) m,
  (ip ≤ length code)%nat → tape_ok (tp m) →
  match exec_loop code table fuel (Z.of_nat ip) m with
  | Finished m' => tape_ok (tp m')
  | Aborted _ _ | Undefined => False
  | OutOfFuel => True
  end.
Proof.
  induction fuel as [|fuel IH]; intros ip m Hip Hok; simpl.
  - case_decide; done.
  - case_decide as Hlt; [|done]. unfold code_len in Hlt.
    destruct (exec_body_safe ip m) as (ip' & m' & -> & Hip' & Hok'); [lia|done|].
    by apply IH.
Qed.
End EngineSafety.

(** C10. [tape_init] returns a tape with the cursor at 0 and every cell
    0, of at least one cell.  On such a tape (cursor below the length,
    length at least 1, as many cells as the length) the [switch] of
    [exec] makes no access out of bounds and leaves such a tape, of the
    same length; and a run of [exec] from such a tape never reaches an
    access out of bounds, a run that finishes leaving such a tape. *)
Theorem cursor_stays_in_bounds :
  (∀ junk n, 0 ≤ n < SIZE_MODULUS →
     ∃ t, tape_init junk n = Ok t ∧ pos t = 0 ∧
          (∀ i v, tape t !! i = Some v → v = 0) ∧ tape_ok t) ∧
  (∀ jumps c ip m, tape_ok (tp m) → (∃ k, load jumps ip = Ok k) →
     ∃ ip' m', dispatch jumps c ip m = Ok (ip', m') ∧
               tape_ok (tp m') ∧ len (tp m') = len (tp m)) ∧
  (∀ junk code fuel m, code_len code < 2 ^ 61 → tape_ok (tp m) →
     match exec junk code fuel m with
     | Finished m' => tape_ok (tp m')
     | Aborted _ m' => m' = m
     | Undefined => False
     | OutOfFuel => True
     end).
Proof.
  split; [|split].
  - intros junk n Hn. eexists. split; [by apply tape_init_spec|]. simpl.
    split; [done|]. split.
    + intros i v Hv. by apply lookup_replicate in Hv as [-> _].
    + unfold tape_ok, SIZE_MODULUS in *. simpl. rewrite length_replicate.
      case_decide; lia.
  - intros jumps c ip m Hok Hk.
    destruct (dispatch_safe jumps c ip m Hok Hk) as (ip' & m' & Hd & Hok' & Hl & _).
    eauto.
  - intros junk code fuel m Hlen Hok. unfold exec.
    destruct (build_jumps junk code) as [table|e|] eqn:Hb.
    + pose proof (exec_loop_safe junk code table Hlen Hb fuel 0 m ltac:(lia) Hok) as H.
      change (Z.of_nat 0) with 0 in H.
      by destruct (exec_loop code table fuel 0 m).
    + done.
    + by apply build_jumps_no_fault in Hb.
Qed.

Lemma cursor_stays_in_bounds_witness :
  let m := Machine (Tape [0; 0] 1 2) [] [] in
  (0 ≤ 0 < SIZE_MODULUS ∧
   ∃ t, tape_init (λ _, 7) 0 = Ok t ∧ pos t = 0 ∧
        (∀ i v, tape t !! i = Some v → v = 0) ∧ tape_ok t) ∧
  (tape_ok (tp m) ∧ (∃ k, load [0; 0] 1 = Ok k) ∧
   ∃ ip' m', dispatch [0; 0] ">" 1 m = Ok (ip', m') ∧
             tape_ok (tp m') ∧ len (tp m') = len (tp m)) ∧
  (code_len (prog "+>") < 2 ^ 61 ∧
   match exec (λ _, 7) (prog "+>") 2 m with
   | Finished m' => tape_ok (tp m')
   | Aborted _ m' => m' = m
   | Undefined => False
   | OutOfFuel => True
   end).
Proof.
  intros m.
  assert (0 ≤ 0 < SIZE_MODULUS) as Hn by (split; [discriminate|reflexivity]).
  assert (tape_ok (tp m)) as Hok.
  { repeat split; try discriminate; reflexivity. }
  assert (∃ k, load [0; 0] 1 = Ok k) as Hk by (exists 0; reflexivity).
  destruct cursor_stays_in_bounds as (Hinit & Hstep & Hrun).
  split; [split; [exact Hn|exact (Hinit (λ _, 7) 0 Hn)]|].
  split; [split; [exact Hok|split; [exact Hk|exact (Hstep [0; 0] ">"%char 1 m Hok Hk)]]|].
  split; [reflexivity|exact (Hrun (λ _, 7) (prog "+>") 2%nat m eq_refl Hok)].
Defined.

(** ** Sample runs *)

Example hello_world_output :
  stdout_of (main (λ _, 7) hello_world 2000 []) =
    Some [72; 101; 108; 108; 111; 32; 87; 111; 114; 108; 100; 33; 10].
Proof. vm_compute. reflexivity. Qed.

Example echo_output :
  main (λ _, 7) (prog ",.") 2 [65] =
    Finished (Machine (Tape [65; 0] 0 2) [] [65]).
Proof. vm_compute. reflexivity. Qed.

Example wrap_right_output :
  stdout_of (main (λ _, 7) (prog "+++>>>.") 7 []) = Some [0].
Proof. vm_compute. reflexivity. Qed.

Example wrap_right_last_cell :
  stdout_of (exec (λ _, 7) (prog ">.") 2 (Machine (Tape [9; 4] 1 2) [] [])) = Some [9].
Proof. vm_compute. reflexivity. Qed.

Example only_open : build_jumps (λ _, 7) (prog "[") = BracketError (UnmatchedOpen 0).
Proof. vm_compute. reflexivity. Qed.

Example only_close : build_jumps (λ _, 7) (prog "]") = BracketError (UnmatchedClose 0).
Proof. vm_compute. reflexivity. Qed.

Example nested_table :
  build_jumps (λ _, 7) (prog "+[-[.]>]") = Ok [0; 7; 0; 5; 0; 3; 0; 1].
Proof. vm_compute. reflexivity. Qed.

Example nested_pairs :
  paired (prog "+[-[.]>]") 1 7 ∧ paired (prog "+[-[.]>]") 3 5 ∧
  ¬ paired (prog "+[-[.]>]") 1 5.
Proof.
  split; [repeat split; reflexivity || lia|].
  split; [repeat split; reflexivity || lia|].
  intros (_ & _ & _ & H). discriminate H.
Qed.

(** Of two loop-closes with nothing to close, the first is reported. *)
Example second_close_not_reported :
  unmatched_close (prog "]]") 1 ∧
  build_jumps (λ _, 7) (prog "]]") = BracketError (UnmatchedClose 0).
Proof. split; [by split|]. vm_compute. reflexivity. Qed.

(** * Further properties of the code *)

(** ** What each result of [build_jumps] says of the program *)

Section BuilderResults.
Variable junk : nat → Z.
Variable code : list ascii.
Hypothesis Hlen : code_len code < 2 ^ 61.

(** The loop either passes its [k] positions, none of them an unmatched
    loop-close, or fails at the first unmatched loop-close. *)
Lemma loop_cases k : ∀ n s st,
  build_inv code n s st → (n + k ≤ length code)%nat →
  (∃ s' st', build_loop code k (Z.of_nat n) s = Ok s' ∧
             build_inv code (n + k) s' st' ∧
             ∀ j, (n ≤ j < n + k)%nat → ¬ unmatched_close code j) ∨
  (∃ j, (n ≤ j < n + k)%nat ∧
        build_loop code k (Z.of_nat n) s = BracketError (UnmatchedClose (Z.of_nat j)) ∧
        unmatched_close code j ∧
        ∀ i, (n ≤ i < j)%nat → ¬ unmatched_close code i).
Proof.
  induction k as [|k IH]; intros n s st Hinv Hk; simpl.
  - left. exists s, st. rewrite Nat.add_0_r. split; [done|]. split; [done|].
    intros j Hj. lia.
  - destruct (lookup_lt_is_Some_2 code n) as [c Hc]; [lia|].
    destruct (body_cases code Hlen n s st c Hinv Hc)
      as [[Hbad ->]|(Hgood & s1 & st1 & -> & Hinv1)]; simpl.
    + right. exists n. split; [lia|]. split; [done|]. split; [done|].
      intros i Hi. lia.
    + rewrite (index_succ code Hlen) by lia.
      destruct (IH (S n) s1 st1 Hinv1) as
        [(s' & st' & Hloop & Hinv' & Hnone)|(j & Hj & Hloop & Hbad & Hfirst)]; [lia| |].
      * left. exists s', st'. replace (n + S k)%nat with (S n + k)%nat by lia.
        split; [done|]. split; [done|]. intros j Hj.
        destruct (decide (j = n)) as [->|Hne]; [done|]. apply Hnone. lia.
      * right. exists j. split; [lia|]. split; [done|]. split; [done|]. intros i Hi.
        destruct (decide (i = n)) as [->|Hne]; [done|]. apply Hfirst. lia.
Qed.

(** The top of the stack after the scan is the last loop-open that is
    never closed. *)
Lemma inv_top_innermost s t r :
  build_inv code (length code) s (t :: r) → innermost_unmatched_open code t.
Proof.
  intros Hinv. pose proof (inv_chain _ _ _ _ Hinv) as (Htn & Ht & Hbal & Hr).
  split; [split; [done|]|].
  - intros j Hp. pose proof Hp as (_ & Hj & _). apply lookup_lt_Some in Hj.
    by apply (paired_close_first code t j (length code) Hp Hj).
  - intros i [Hi Hopen].
    destruct (le_lt_dec i t) as [|Hlt]; [done|]. exfalso.
    destruct (inv_closed _ _ _ _ Hinv i "["%char) as (a & b & Hp & Hb & [->| ->]);
      [by eapply lookup_lt_Some|done|by left| | |].
    + intros Hin. apply elem_of_cons in Hin as [->|Hin]; [lia|].
      pose proof (chain_lt _ _ _ _ Hr Hin). lia.
    + by destruct (Hopen b).
    + destruct Hp as (_ & Hb' & _). congruence.
Qed.

(** The three results of [build_jumps]. *)
Lemma build_jumps_cases :
  (∃ s, build_jumps junk code = Ok (jumps s) ∧
        build_inv code (length code) s [] ∧
        ∀ j, ¬ unmatched_close code j) ∨
  (∃ k, build_jumps junk code = BracketError (UnmatchedClose (Z.of_nat k)) ∧
        unmatched_close code k ∧
        ∀ i, (i < k)%nat → ¬ unmatched_close code i) ∨
  (∃ s t r, build_jumps junk code = BracketError (UnmatchedOpen (Z.of_nat t)) ∧
            build_inv code (length code) s (t :: r) ∧
            ∀ j, ¬ unmatched_close code j).
Proof.
  rewrite build_jumps_unfold.
  destruct (loop_cases (length code) 0 _ [] (build_init_inv junk code Hlen))
    as [(s & st & -> & Hinv & Hnone)|(k & Hk & -> & Hbad & Hfirst)]; [lia| |].
  - simpl in Hinv.
    assert (∀ j, ¬ unmatched_close code j) as Hnone'.
    { intros j Hj. pose proof Hj as [Hc _]. apply lookup_lt_Some in Hc.
      apply (Hnone j); [lia|done]. }
    destruct st as [|t r].
    + left. exists s. pose proof (inv_rep _ _ _ _ Hinv) as [Hsp _]. simpl in Hsp.
      simpl. rewrite decide_False by lia. done.
    + right; right. exists s, t, r.
      destruct (inv_top code Hlen _ s t r Hinv) as [Hsp Htop].
      simpl. rewrite decide_True, Htop by done. done.
  - right; left. exists k. split; [done|]. split; [done|].
    intros i Hi. apply Hfirst. lia.
Qed.
End BuilderResults.

(** X1. Whatever the program and whatever the contents of the fresh
    stack array, [build_jumps] makes no access outside of [code],
    [jumps] and [stack]: it returns a table or one of the two bracket
    errors. *)
Theorem build_jumps_never_out_of_bounds (junk : nat → Z) (code : list ascii) :
  code_len code < 2 ^ 61 →
  (∃ table, build_jumps junk code = Ok table ∧ length table = length code) ∨
  (∃ k, (k < length code)%nat ∧
        (build_jumps junk code = BracketError (UnmatchedClose (Z.of_nat k)) ∨
         build_jumps junk code = BracketError (UnmatchedOpen (Z.of_nat k)))).
Proof.
  intros Hlen.
  destruct (build_jumps_cases junk code Hlen)
    as [(s & -> & Hinv & _)|[(k & -> & [Hk _] & _)|(s & t & r & -> & Hinv & _)]].
  - left. exists (jumps s). split; [done|apply Hinv].
  - right. exists k. split; [by eapply lookup_lt_Some|by left].
  - right. exists t. split; [|by right].
    destruct (inv_chain _ _ _ _ Hinv) as (_ & Ht & _). by eapply lookup_lt_Some.
Qed.

Lemma build_jumps_never_out_of_bounds_witness :
  code_len (prog "[+]][") < 2 ^ 61 ∧
  ((∃ table, build_jumps (λ n, Z.of_nat n) (prog "[+]][") = Ok table ∧
             length table = length (prog "[+]][")) ∨
   (∃ k, (k < length (prog "[+]]["))%nat ∧
         (build_jumps (λ n, Z.of_nat n) (prog "[+]][") =
            BracketError (UnmatchedClose (Z.of_nat k)) ∨
          build_jumps (λ n, Z.of_nat n) (prog "[+]][") =
            BracketError (UnmatchedOpen (Z.of_nat k))))).
Proof.
  split; [reflexivity|].
  exact (build_jumps_never_out_of_bounds (λ n, Z.of_nat n) (prog "[+]][") eq_refl).
Defined.

(** X2. [build_jumps] returns a table only for a program whose brackets
    are balanced. *)
Theorem build_jumps_ok_only_if_balanced (junk : nat → Z) (code : list ascii)
    (table : list Z) :
  code_len code < 2 ^ 61 → build_jumps junk code = Ok table → balanced code.
Proof.
  intros Hlen Hok.
  destruct (build_jumps_cases junk code Hlen)
    as [(s & _ & Hinv & Hnone)|[(k & Hk & _)|(s & t & r & Hk & _)]];
    [|rewrite Hok in Hk; done..].
  apply pending_balanced_from.
  - rewrite <- (firstn_all code). by rewrite <- (inv_pending _ _ _ _ Hinv).
  - intros k Hk Hp. by apply (Hnone k).
Qed.

Lemma build_jumps_ok_only_if_balanced_witness :
  code_len (prog "[-[.]]") < 2 ^ 61 ∧
  build_jumps (λ _, 7) (prog "[-[.]]") = Ok [5; 0; 4; 0; 2; 0] ∧
  balanced (prog "[-[.]]").
Proof.
  split; [reflexivity|]. split; [reflexivity|].
  exact (build_jumps_ok_only_if_balanced (λ _, 7) (prog "[-[.]]") _ eq_refl eq_refl).
Defined.

(** X3. The index that [build_jumps] reports with "Unmatched ']'" is a
    position of the program that holds a loop-close, it is the first
    loop-close with no unmatched loop-open before it, and the text
    before it is balanced. *)
Theorem reported_close_is_first_unmatched (junk : nat → Z) (code : list ascii)
    (z : Z) :
  code_len code < 2 ^ 61 →
  build_jumps junk code = BracketError (UnmatchedClose z) →
  ∃ k, z = Z.of_nat k ∧ code !! k = Some "]"%char ∧
       unmatched_close code k ∧
       (∀ i, (i < k)%nat → ¬ unmatched_close code i) ∧
       balanced (take k code).
Proof.
  intros Hlen Herr.
  destruct (build_jumps_cases junk code Hlen)
    as [(s & Hk & _)|[(k & Hk & Hbad & Hfirst)|(s & t & r & Hk & _)]];
    rewrite Herr in Hk; [done| |done].
  injection Hk as ->. exists k. split; [done|]. split; [apply Hbad|].
  split; [done|]. split; [done|].
  by apply (first_unmatched_close_iff code k).
Qed.

Lemma reported_close_is_first_unmatched_witness :
  code_len (prog "[]+]]") < 2 ^ 61 ∧
  build_jumps (λ _, 7) (prog "[]+]]") = BracketError (UnmatchedClose 3) ∧
  ∃ k, 3 = Z.of_nat k ∧ prog "[]+]]" !! k = Some "]"%char ∧
       unmatched_close (prog "[]+]]") k ∧
       (∀ i, (i < k)%nat → ¬ unmatched_close (prog "[]+]]") i) ∧
       balanced (take k (prog "[]+]]")).
Proof.
  split; [reflexivity|]. split; [reflexivity|].
  exact (reported_close_is_first_unmatched (λ _, 7) (prog "[]+]]") 3 eq_refl eq_refl).
Defined.

(** X4. The index that [build_jumps] reports with "Unmatched '['" is a
    position of the program that holds a loop-open; no loop-close of
    the program is unmatched, the reported loop-open is the last one
    that is never closed, and the text after it is balanced. *)
Theorem reported_open_is_innermost (junk : nat → Z) (code : list ascii) (z : Z) :
  code_len code < 2 ^ 61 →
  build_jumps junk code = BracketError (UnmatchedOpen z) →
  ∃ m, z = Z.of_nat m ∧ code !! m = Some "["%char ∧
       (∀ k, ¬ unmatched_close code k) ∧
       innermost_unmatched_open code m ∧
       balanced (drop (S m) code).
Proof.
  intros Hlen Herr.
  destruct (build_jumps_cases junk code Hlen)
    as [(s & Hk & _)|[(k & Hk & _)|(s & t & r & Hk & Hinv & Hnone)]];
    rewrite Herr in Hk; [done..|].
  injection Hk as ->. exists t.
  pose proof (inv_chain _ _ _ _ Hinv) as (_ & Ht & Hbal & _).
  split; [done|]. split; [done|]. split; [done|].
  split; [by apply (inv_top_innermost code s t r)|].
  unfold segment in Hbal. rewrite take_ge in Hbal; [done|].
  rewrite length_drop. lia.
Qed.

Lemma reported_open_is_innermost_witness :
  code_len (prog "[[]+[-") < 2 ^ 61 ∧
  build_jumps (λ _, 7) (prog "[[]+[-") = BracketError (UnmatchedOpen 4) ∧
  ∃ m, 4 = Z.of_nat m ∧ prog "[[]+[-" !! m = Some "["%char ∧
       (∀ k, ¬ unmatched_close (prog "[[]+[-") k) ∧
       innermost_unmatched_open (prog "[[]+[-") m ∧
       balanced (drop (S m) (prog "[[]+[-")).
Proof.
  split; [reflexivity|]. split; [reflexivity|].
  exact (reported_open_is_innermost (λ _, 7) (prog "[[]+[-") 4 eq_refl eq_refl).
Defined.

(** ** The fresh stack array is written before it is read *)

Lemma stack_agree_refl_init junk1 junk2 code :
  stack_agree (build_init junk1 code) (build_init junk2 code).
Proof.
  unfold stack_agree, build_init, malloc. simpl.
  split; [done|]. split; [done|].
  split; [by rewrite !length_fmap|].
  split; [done|]. intros k Hk. lia.
Qed.

Lemma load_agree s1 s2 i :
  stack_agree s1 s2 → 0 ≤ i < sp s1 →
  load (stack s1) i = load (stack s2) i.
Proof.
  intros (_ & _ & _ & _ & Hlive) Hi. unfold load.
  rewrite !decide_True by lia.
  rewrite (Hlive (Z.to_nat i)); [done|lia].
Qed.

Lemma body_agree code i s1 s2 :
  stack_agree s1 s2 → result_agree (build_body code i s1) (build_body code i s2).
Proof.
  intros Hag. pose proof Hag as (Hj & Hsp & Hl & Hrange & Hlive).
  unfold build_body.
  destruct (load code i) as [c| |]; simpl; [|done..].
  destruct (c =? "[")%char.
  - unfold store. rewrite <- Hsp, <- Hl.
    case_decide as Hin; simpl; [|done].
    assert (0 ≤ to_size_t (sp s1 + 1) < SIZE_MODULUS) as Hnew.
    { unfold to_size_t, SIZE_MODULUS. by apply Z.mod_pos_bound. }
    split; [done|]. split; [done|]. simpl.
    split; [by rewrite !length_insert|]. split; [done|].
    intros k Hk.
    destruct (decide (sp s1 + 1 < SIZE_MODULUS)) as [Hsmall|Hbig].
    + rewrite to_size_t_small in Hk by lia.
      destruct (decide (k = Z.to_nat (sp s1))) as [->|Hne].
      * rewrite !list_lookup_insert_eq by lia. done.
      * rewrite !list_lookup_insert_ne by done. apply Hlive. lia.
    + assert (sp s1 + 1 = SIZE_MODULUS) as Heq by lia.
      unfold to_size_t in Hk. rewrite Heq, Z.mod_same in Hk by done. lia.
  - destruct (c =? "]")%char; [|done].
    rewrite <- Hsp. case_decide as Hz; simpl; [done|].
    assert (to_size_t (sp s1 - 1) = sp s1 - 1) as Hpred.
    { apply to_size_t_small. lia. }
    rewrite Hpred.
    rewrite <- (load_agree s1 s2 (sp s1 - 1) Hag) by lia.
    destruct (load (stack s1) (sp s1 - 1)) as [open_idx| |]; simpl; [|done..].
    rewrite <- Hj.
    destruct (store (jumps s1) open_idx (to_ssize_t i)) as [jumps1| |]; simpl; [|done..].
    destruct (store jumps1 i (to_ssize_t open_idx)) as [jumps2| |]; simpl; [|done..].
    split; [done|]. split; [done|]. simpl. split; [done|]. split; [lia|].
    intros k Hk. apply Hlive. lia.
Qed.

Lemma loop_agree code n : ∀ i s1 s2,
  stack_agree s1 s2 →
  result_agree (build_loop code n i s1) (build_loop code n i s2).
Proof.
  induction n as [|n IH]; intros i s1 s2 Hag; simpl; [done|].
  pose proof (body_agree code i s1 s2 Hag) as Hbody.
  destruct (build_body code i s1) as [a| |], (build_body code i s2) as [b| |];
    simpl in *; try done.
  by apply IH.
Qed.

Lemma build_jumps_agree (junk1 junk2 : nat → Z) (code : list ascii) :
  build_jumps junk1 code = build_jumps junk2 code.
Proof.
  unfold build_jumps.
  pose proof (loop_agree code (Z.to_nat (code_len code)) 0 _ _
                (stack_agree_refl_init junk1 junk2 code)) as Hloop.
  destruct (build_loop code _ 0 (build_init junk1 code)) as [s1| |],
           (build_loop code _ 0 (build_init junk2 code)) as [s2| |];
    simpl in *; try done; [|by subst].
  pose proof Hloop as (Hj & Hsp & _ & Hrange & _).
  rewrite <- Hsp, <- Hj. case_decide as Hz; [|done].
  rewrite to_size_t_small by lia.
  rewrite <- (load_agree s1 s2 (sp s1 - 1) Hloop); [done|lia].
Qed.

(** X5. The result of [build_jumps] does not depend on what the stack
    array holds when [malloc] returns it: no slot of the stack is read
    before the scan has written it.  This holds for every program,
    balanced or not, of any length. *)
Theorem build_jumps_ignores_fresh_memory (junk1 junk2 : nat → Z) (code : list ascii) :
  build_jumps junk1 code = build_jumps junk2 code.
Proof. apply build_jumps_agree. Qed.

(** X6. Every entry of a table that [build_jumps] returns is an index
    of the program, and the entry at a bracket is the position of a
    bracket of the other kind, different from its own position: the
    jumps of [exec] stay inside the program. *)
Theorem jump_targets_in_range (junk : nat → Z) (code : list ascii)
    (table : list Z) (i : nat) (v : Z) :
  code_len code < 2 ^ 61 →
  build_jumps junk code = Ok table →
  table !! i = Some v →
  0 ≤ v < code_len code ∧
  ∀ c, code !! i = Some c → is_bracket c →
       v ≠ Z.of_nat i ∧
       ∃ c', code !! Z.to_nat v = Some c' ∧ is_bracket c' ∧ c' ≠ c.
Proof.
  intros Hlen Hok Hv. split; [by apply (table_range junk code table Hlen Hok i)|].
  intros c Hc Hb.
  destruct (table_bracket junk code table Hlen Hok i c Hc Hb) as (k & Hp & Hk & Hik & _).
  rewrite Hv in Hik. injection Hik as ->. rewrite Nat2Z.id.
  destruct Hp as [(Hi & Hk' & Hlt & _)|(Hk' & Hi & Hlt & _)];
    rewrite Hc in Hi; injection Hi as ->.
  - split; [lia|]. exists "]"%char. split; [done|]. split; [by right|done].
  - split; [lia|]. exists "["%char. split; [done|]. split; [by left|done].
Qed.

Lemma jump_targets_in_range_witness :
  code_len (prog "+[-[.]>]") < 2 ^ 61 ∧
  build_jumps (λ _, 7) (prog "+[-[.]>]") = Ok [0; 7; 0; 5; 0; 3; 0; 1] ∧
  [0; 7; 0; 5; 0; 3; 0; 1] !! 5%nat = Some 3 ∧
  0 ≤ 3 < code_len (prog "+[-[.]>]") ∧
  ∀ c, prog "+[-[.]>]" !! 5%nat = Some c → is_bracket c →
       3 ≠ Z.of_nat 5 ∧
       ∃ c', prog "+[-[.]>]" !! Z.to_nat 3 = Some c' ∧ is_bracket c' ∧ c' ≠ c.
Proof.
  split; [reflexivity|]. split; [reflexivity|]. split; [reflexivity|].
  exact (jump_targets_in_range (λ _, 7) (prog "+[-[.]>]") _ 5 3 eq_refl eq_refl eq_refl).
Defined.

(** ** The tape, once more *)



(** ** More on single instructions *)

Lemma set_pos_restore m a : set_pos (set_pos m a) (pos (tp m)) = m.
Proof. by destruct m as [[cells p l] i o]. Qed.

(** X8. On a well-formed tape, move-left undoes move-right and
    move-right undoes move-left, at the two ends of the tape as in the
    middle; the state after the two moves is the state before them. *)
Theorem cursor_moves_are_inverse (jumps : list Z) (ip : Z) (m : machine) :
  tape_ok (tp m) →
  (∃ r, dispatch jumps ">" ip m = Ok (ip, r) ∧ dispatch jumps "<" ip r = Ok (ip, m)) ∧
  (∃ l, dispatch jumps "<" ip m = Ok (ip, l) ∧ dispatch jumps ">" ip l = Ok (ip, m)).
Proof.
  intros (Hl & Hp & _). unfold dispatch. simpl. split.
  - rewrite (to_size_t_small (pos (tp m) + 1)) by lia.
    destruct (decide (pos (tp m) + 1 >= len (tp m))) as [Hend|Hmid].
    + eexists. split; [reflexivity|]. simpl.
      rewrite to_size_t_small by lia.
      replace (len (tp m) - 1) with (pos (tp m)) by lia.
      by rewrite set_pos_restore.
    + eexists. split; [reflexivity|]. simpl.
      rewrite decide_False by lia.
      rewrite to_size_t_small by lia.
      replace (pos (tp m) + 1 - 1) with (pos (tp m)) by lia.
      by rewrite set_pos_restore.
  - destruct (decide (pos (tp m) = 0)) as [Hz|Hnz].
    + eexists. split; [reflexivity|]. simpl.
      rewrite (to_size_t_small (len (tp m) - 1)) by lia.
      replace (len (tp m) - 1 + 1) with (len (tp m)) by lia.
      rewrite (to_size_t_small (len (tp m))) by lia.
      rewrite decide_True by lia.
      rewrite <- Hz at 1. by rewrite set_pos_restore.
    + eexists. split; [reflexivity|]. simpl.
      rewrite (to_size_t_small (pos (tp m) - 1)) by lia.
      replace (pos (tp m) - 1 + 1) with (pos (tp m)) by lia.
      rewrite (to_size_t_small (pos (tp m))) by lia.
      rewrite decide_False by lia.
      by rewrite set_pos_restore.
Qed.

Lemma cursor_moves_are_inverse_witness :
  let m := Machine (Tape [5; 6; 7] 2 3) [] [] in
  tape_ok (tp m) ∧
  (∃ r, dispatch [] ">" 0 m = Ok (0, r) ∧ dispatch [] "<" 0 r = Ok (0, m)) ∧
  (∃ l, dispatch [] "<" 0 m = Ok (0, l) ∧ dispatch [] ">" 0 l = Ok (0, m)).
Proof.
  intros m.
  assert (tape_ok (tp m)) as Hok by (repeat split; try discriminate; reflexivity).
  split; [exact Hok|]. exact (cursor_moves_are_inverse [] 0 m Hok).
Defined.

(** X9. With a byte in the cell at the cursor, an increment that
    follows a decrement gives back the state before the decrement, for
    0 (which passes through 255) as for every other value. *)
Theorem increment_undoes_decrement (jumps : list Z) (ip : Z) (m : machine) (v : Z) :
  cell_at_cursor m v → is_byte v →
  ∃ down, dispatch jumps "-" ip m = Ok (ip, down) ∧
          cell_at_cursor down ((v - 1) mod 256) ∧
          dispatch jumps "+" ip down = Ok (ip, m).
Proof.
  intros Hv Hbyte.
  pose proof (cell_after_store m v (to_uchar (v - 1)) Hv) as Hdown.
  exists (set_cells m (<[Z.to_nat (pos (tp m)) := to_uchar (v - 1)]> (tape (tp m)))).
  split; [|split; [done|]].
  - unfold dispatch. simpl. pose proof Hv as Hload. unfold cell_at_cursor in Hload.
    rewrite Hload. simpl. by rewrite (store_at_cursor m v).
  - unfold dispatch. simpl.
    pose proof Hdown as Hload. unfold cell_at_cursor in Hload. simpl in Hload.
    rewrite Hload. simpl.
    pose proof (store_at_cursor _ _ (to_uchar (to_uchar (v - 1) + 1)) Hdown) as Hst.
    simpl in Hst. rewrite Hst. simpl.
    replace (to_uchar (to_uchar (v - 1) + 1)) with v.
    + by rewrite (set_cells_restore m v).
    + unfold to_uchar, is_byte in *.
      destruct (decide (v = 0)) as [->|Hne]; [done|].
      rewrite (Z.mod_small (v - 1)) by lia. rewrite Z.mod_small; lia.
Qed.

Lemma increment_undoes_decrement_witness :
  let m := Machine (Tape [0; 3] 0 2) [] [] in
  cell_at_cursor m 0 ∧ is_byte 0 ∧
  ∃ down, dispatch [] "-" 0 m = Ok (0, down) ∧
          cell_at_cursor down ((0 - 1) mod 256) ∧
          dispatch [] "+" 0 down = Ok (0, m).
Proof.
  intros m.
  assert (cell_at_cursor m 0) as Hv by reflexivity.
  assert (is_byte 0) as Hb by (split; [discriminate|reflexivity]).
  split; [exact Hv|]. split; [exact Hb|].
  exact (increment_undoes_decrement [] 0 m 0 Hv Hb).
Defined.

Lemma store_length {A} (l : list A) i x l' :
  store l i x = Ok l' → length l' = length l.
Proof.
  unfold store. case_decide; [|done]. intros [= <-]. by rewrite length_insert.
Qed.

(** What one [switch] can change. *)
Lemma dispatch_frame jumps c ip m ip' m' :
  dispatch jumps c ip m = Ok (ip', m') →
  len (tp m') = len (tp m) ∧
  length (tape (tp m')) = length (tape (tp m)) ∧
  (c ≠ "."%char → stdout m' = stdout m) ∧
  (c = "."%char → ∃ b, is_byte b ∧ stdout m' = stdout m ++ [b]) ∧
  (c ≠ ","%char → stdin m' = stdin m) ∧
  (c = ","%char → stdin m' = tail (stdin m)) ∧
  (c ≠ ">"%char → c ≠ "<"%char → pos (tp m') = pos (tp m)) ∧
  (c ≠ "+"%char → c ≠ "-"%char → c ≠ ","%char → tape (tp m') = tape (tp m)) ∧
  (¬ is_bracket c → ip' = ip).
Proof.
  unfold dispatch.
  destruct (Ascii.eqb_spec c "+") as [->|Hplus].
  { destruct (load (tape (tp m)) (pos (tp m))) as [v| |]; simpl; [|done..].
    unfold store. case_decide; simpl; [|done]. intros [= <- <-]. simpl.
    rewrite length_insert. repeat split; done. }
  destruct (Ascii.eqb_spec c "-") as [->|Hminus].
  { destruct (load (tape (tp m)) (pos (tp m))) as [v| |]; simpl; [|done..].
    unfold store. case_decide; simpl; [|done]. intros [= <- <-]. simpl.
    rewrite length_insert. repeat split; done. }
  destruct (Ascii.eqb_spec c ">") as [->|Hright].
  { case_decide; intros [= <- <-]; simpl; repeat split; done. }
  destruct (Ascii.eqb_spec c "<") as [->|Hleft].
  { case_decide; intros [= <- <-]; simpl; repeat split; done. }
  destruct (Ascii.eqb_spec c ".") as [->|Hdot].
  { destruct (load (tape (tp m)) (pos (tp m))) as [v| |]; simpl; [|done..].
    intros [= <- <-]. simpl. repeat split; try done.
    intros _. exists (to_uchar v). split; [|done].
    unfold is_byte, to_uchar. by apply Z.mod_pos_bound. }
  destruct (Ascii.eqb_spec c ",") as [->|Hcomma].
  { destruct (getchar (stdin m)) as [ch rest] eqn:Hget.
    assert (rest = tail (stdin m)) as ->.
    { destruct (stdin m); simpl in Hget; by injection Hget as _ <-. }
    destruct (store _ _ _) as [cells| |] eqn:Hst; simpl; [|done..].
    apply store_length in Hst.
    intros [= <- <-]; simpl; repeat split; done. }
  destruct (Ascii.eqb_spec c "[") as [->|Hopen].
  { destruct (load (tape (tp m)) (pos (tp m))) as [v| |]; simpl; [|done..].
    case_decide; [destruct (load jumps ip); simpl; [|done..]|];
      intros [= <- <-]; repeat split; try done; intros []; by left. }
  destruct (Ascii.eqb_spec c "]") as [->|Hclose].
  { destruct (load (tape (tp m)) (pos (tp m))) as [v| |]; simpl; [|done..].
    case_decide; [destruct (load jumps ip); simpl; [|done..]|];
      intros [= <- <-]; repeat split; try done; intros []; by right. }
  intros [= <- <-]. repeat split; done.
Qed.

(** X10. An instruction changes only its own part of the state.  The
    length of the tape never changes; only [.] writes to the output,
    only [,] reads from the input, only [<] and [>] move the cursor,
    only [+], [-] and [,] change a cell, only the brackets set the
    instruction pointer; a character that is none of the eight changes
    nothing at all. *)
Theorem instruction_effects_are_local (jumps : list Z) (c : ascii) (ip : Z)
    (m : machine) (ip' : Z) (m' : machine) :
  dispatch jumps c ip m = Ok (ip', m') →
  len (tp m') = len (tp m) ∧
  length (tape (tp m')) = length (tape (tp m)) ∧
  (c ≠ "."%char → stdout m' = stdout m) ∧
  (c ≠ ","%char → stdin m' = stdin m) ∧
  (c ≠ ">"%char → c ≠ "<"%char → pos (tp m') = pos (tp m)) ∧
  (c ≠ "+"%char → c ≠ "-"%char → c ≠ ","%char → tape (tp m') = tape (tp m)) ∧
  (¬ is_bracket c → ip' = ip) ∧
  (c ≠ "+"%char → c ≠ "-"%char → c ≠ ">"%char → c ≠ "<"%char →
   c ≠ "."%char → c ≠ ","%char → ¬ is_bracket c → ip' = ip ∧ m' = m).
Proof.
  intros Hd.
  destruct (dispatch_frame jumps c ip m ip' m' Hd)
    as (Hlen & Hcells & Hout & _ & Hin & _ & Hpos & Htape & Hip).
  repeat split; try done.
  - by apply Hip.
  - destruct m as [[cells p l] i o], m' as [[cells' p' l'] i' o'].
    simpl in *. rewrite Hlen, Hout, Hin, Hpos, Htape by done. done.
Qed.

Lemma instruction_effects_are_local_witness :
  let m := Machine (Tape [5; 6] 1 2) [65] [66] in
  let m' := Machine (Tape [5; 65] 1 2) [] [66] in
  dispatch [] "," 7 m = Ok (7, m') ∧
  len (tp m') = len (tp m) ∧
  length (tape (tp m')) = length (tape (tp m)) ∧
  ("," ≠ "." → stdout m' = stdout m)%char ∧
  ("," ≠ "," → stdin m' = stdin m)%char ∧
  ("," ≠ ">" → "," ≠ "<" → pos (tp m') = pos (tp m))%char ∧
  ("," ≠ "+" → "," ≠ "-" → "," ≠ "," → tape (tp m') = tape (tp m))%char ∧
  (¬ is_bracket "," → 7 = 7) ∧
  ("," ≠ "+" → "," ≠ "-" → "," ≠ ">" → "," ≠ "<" →
   "," ≠ "." → "," ≠ "," → ¬ is_bracket "," → 7 = 7 ∧ m' = m)%char.
Proof.
  intros m m'. split; [reflexivity|].
  exact (instruction_effects_are_local [] "," 7 m 7 m' eq_refl).
Defined.

(** X11. The output instruction appends the byte in the cell at the
    cursor to the output and leaves the tape, the cursor, the input
    and the instruction pointer as they are. *)
Theorem output_writes_cell (jumps : list Z) (ip : Z) (m : machine) (v : Z) :
  cell_at_cursor m v → is_byte v →
  dispatch jumps "." ip m = Ok (ip, Machine (tp m) (stdin m) (stdout m ++ [v])).
Proof.
  intros Hv Hb. unfold dispatch. simpl. unfold cell_at_cursor in Hv.
  rewrite Hv. simpl. unfold putchar, to_uchar. by rewrite Z.mod_small.
Qed.

Lemma output_writes_cell_witness :
  let m := Machine (Tape [72; 0] 0 2) [1] [10] in
  cell_at_cursor m 72 ∧ is_byte 72 ∧
  dispatch [] "." 0 m = Ok (0, Machine (tp m) (stdin m) (stdout m ++ [72])).
Proof.
  intros m.
  assert (cell_at_cursor m 72) as Hv by reflexivity.
  assert (is_byte 72) as Hb by (split; [discriminate|reflexivity]).
  split; [exact Hv|]. split; [exact Hb|].
  exact (output_writes_cell [] 0 m 72 Hv Hb).
Defined.

(** A bracket that does not take its jump changes nothing. *)
Lemma dispatch_bracket_fallthrough jumps c ip m v :
  cell_at_cursor m v → is_bracket c → ¬ jump_taken c v →
  dispatch jumps c ip m = Ok (ip, m).
Proof.
  intros Hv Hb Hno. unfold cell_at_cursor in Hv.
  destruct Hb as [-> | ->]; unfold dispatch; simpl; rewrite Hv; simpl.
  - rewrite decide_False; [done|]. intros ->. apply Hno. by left.
  - rewrite decide_False; [done|]. intros Hnz. apply Hno. by right.
Qed.

(** X12. The bracket that a taken jump lands behind would have done
    nothing: with the table of [build_jumps], the iteration at the
    bracket [ip] that takes its jump and an iteration at its partner
    [k] in the same state both end at [k + 1] with the state
    unchanged.  Landing one past the partner or on it leads to the
    same state at [k + 1]. *)
Theorem skipped_bracket_is_no_op (junk : nat → Z) (code : list ascii)
    (table : list Z) (ip : nat) (c : ascii) (m : machine) (v : Z) :
  code_len code < 2 ^ 61 →
  build_jumps junk code = Ok table →
  code !! ip = Some c →
  cell_at_cursor m v →
  jump_taken c v →
  ∃ k, table !! ip = Some (Z.of_nat k) ∧
       exec_body code table (Z.of_nat ip) m = Ok (Z.of_nat k + 1, m) ∧
       exec_body code table (Z.of_nat k) m = Ok (Z.of_nat k + 1, m).
Proof.
  intros Hlen Htable Hc Hv Hj.
  assert (is_bracket c) as Hb by (destruct Hj as [[-> _]|[-> _]]; [by left|by right]).
  destruct (table_bracket junk code table Hlen Htable ip c Hc Hb)
    as (k & Hp & Hk & Hik & Hki).
  destruct (dispatch_ip table c (Z.of_nat ip) m v Hv) as [Hjump _].
  exists k. split; [done|]. split.
  - unfold exec_body. rewrite (load_nat _ _ _ Hc). simpl.
    rewrite (Hjump Hj (Z.of_nat k) (load_nat _ _ _ Hik)). simpl.
    rewrite (to_size_t_small (Z.of_nat k)) by (unfold code_len, SIZE_MODULUS in *; lia).
    by rewrite (index_next code Hlen k Hk).
  - assert (∃ c', code !! k = Some c' ∧ is_bracket c' ∧ ¬ jump_taken c' v)
      as (c' & Hc' & Hb' & Hno).
    { destruct Hp as [(Hi & Hk' & _)|(Hk' & Hi & _)];
        rewrite Hc in Hi; injection Hi as ->.
      - exists "]"%char. split; [done|]. split; [by right|].
        destruct Hj as [[_ ->]|[Habs _]]; [|done].
        intros [[Habs _]|[_ Hnz]]; done.
      - exists "["%char. split; [done|]. split; [by left|].
        destruct Hj as [[Habs _]|[_ Hnz]]; [done|].
        intros [[_ Hz]|[Habs _]]; done. }
    unfold exec_body. rewrite (load_nat _ _ _ Hc'). simpl.
    rewrite (dispatch_bracket_fallthrough table c' (Z.of_nat k) m v Hv Hb' Hno). simpl.
    by rewrite (index_next code Hlen k Hk).
Qed.

Lemma skipped_bracket_is_no_op_witness :
  let code := prog "+[-]." in
  let table := [0; 3; 0; 1; 0] in
  let m := Machine (Tape [0; 0] 0 2) [] [] in
  code_len code < 2 ^ 61 ∧
  build_jumps (λ _, 7) code = Ok table ∧
  code !! 1%nat = Some "["%char ∧
  cell_at_cursor m 0 ∧
  jump_taken "[" 0 ∧
  ∃ k, table !! 1%nat = Some (Z.of_nat k) ∧
       exec_body code table (Z.of_nat 1) m = Ok (Z.of_nat k + 1, m) ∧
       exec_body code table (Z.of_nat k) m = Ok (Z.of_nat k + 1, m).
Proof.
  intros code table m.
  assert (jump_taken "[" 0) as Hj by (left; split; reflexivity).
  split; [reflexivity|]. split; [reflexivity|]. split; [reflexivity|].
  split; [reflexivity|]. split; [exact Hj|].
  exact (skipped_bracket_is_no_op (λ _, 7) code table 1 "[" m 0
           eq_refl eq_refl eq_refl eq_refl Hj).
Defined.

(** ** Whole runs, once more *)

Lemma exec_body_dispatch code table ip m ip' m' :
  exec_body code table ip m = Ok (ip', m') →
  ∃ c ip'', dispatch table c ip m = Ok (ip'', m') ∧ load code ip = Ok c.
Proof.
  unfold exec_body. destruct (load code ip) as [c| |]; simpl; [|done..].
  destruct (dispatch table c ip m) as [[ip'' m'']| |] eqn:Hd; simpl; [|done..].
  intros [= <- <-]. eauto.
Qed.

(** A property of the state that every [switch] keeps holds when the
    loop of [exec] is left. *)
Lemma exec_loop_preserves code table (P : machine → Prop) :
  (∀ c ip m ip' m', P m → dispatch table c ip m = Ok (ip', m') → P m') →
  ∀ fuel ip m m', P m → exec_loop code table fuel ip m = Finished m' → P m'.
Proof.
  intros Hstep. induction fuel as [|fuel IH]; intros ip m m' HP; simpl.
  - case_decide; [done|]. by intros [= <-].
  - case_decide; [|by intros [= <-]].
    destruct (exec_body code table ip m) as [[ip1 m1]| |] eqn:Hbody; [|done..].
    apply exec_body_dispatch in Hbody as (c & ip'' & Hd & _).
    apply IH. by apply (Hstep c ip m ip'' m1).
Qed.

Lemma exec_end_cases junk code fuel m m' :
  (exec junk code fuel m = Finished m' ∨ ∃ e, exec junk code fuel m = Aborted e m') →
  m' = m ∨ ∃ table, exec_loop code table fuel 0 m = Finished m'.
Proof.
  unfold exec. destruct (build_jumps junk code) as [table|e'|].
  - intros [H|[e H]]; [eauto|]. exfalso.
    revert H. generalize 0. revert m.
    induction fuel as [|fuel IH]; intros m ip; simpl; case_decide; try done.
    destruct (exec_body code table ip m) as [[ip1 m1]| |]; [apply IH|done..].
  - intros [H|[e H]]; [done|]. injection H as _ <-. by left.
  - intros [H|[e H]]; done.
Qed.

(** X13. When [exec] returns, after a full run or after a failed
    bracket check, the tape has the length and the number of cells it
    had, the output is the former output with bytes added at its end,
    and the input is a final part of the former input: nothing written
    is taken back, nothing read is read again. *)
Theorem run_extends_output_consumes_input (junk : nat → Z) (code : list ascii)
    (fuel : nat) (m m' : machine) :
  (exec junk code fuel m = Finished m' ∨ ∃ e, exec junk code fuel m = Aborted e m') →
  len (tp m') = len (tp m) ∧
  length (tape (tp m')) = length (tape (tp m)) ∧
  stdout m `prefix_of` stdout m' ∧
  stdin m' `suffix_of` stdin m.
Proof.
  intros Hend. apply exec_end_cases in Hend as [->|[table Hloop]]; [done|].
  revert Hloop.
  apply (exec_loop_preserves code table (λ m1,
    len (tp m1) = len (tp m) ∧ length (tape (tp m1)) = length (tape (tp m)) ∧
    stdout m `prefix_of` stdout m1 ∧ stdin m1 `suffix_of` stdin m)); [|done].
  intros c ip m1 ip' m2 (Hl & Hc & Hout & Hin) Hd.
  destruct (dispatch_frame table c ip m1 ip' m2 Hd)
    as (Hl' & Hc' & Hout' & Hdot & Hin' & Hcomma & _).
  split; [congruence|]. split; [congruence|]. split.
  - destruct (Ascii.eqb_spec c ".") as [Heq|Hne].
    + destruct (Hdot Heq) as (b & _ & ->). by apply prefix_app_r.
    + by rewrite Hout'.
  - destruct (Ascii.eqb_spec c ",") as [Heq|Hne].
    + rewrite (Hcomma Heq). etrans; [|done].
      destruct (stdin m1); [done|]. by apply suffix_cons_r.
    + by rewrite Hin'.
Qed.

Lemma run_extends_output_consumes_input_witness :
  let m := Machine (Tape [0; 0] 0 2) [65; 66] [1] in
  let m' := Machine (Tape [65; 0] 0 2) [66] [1; 65] in
  (exec (λ _, 7) (prog ",.") 2 m = Finished m' ∨
   ∃ e, exec (λ _, 7) (prog ",.") 2 m = Aborted e m') ∧
  len (tp m') = len (tp m) ∧
  length (tape (tp m')) = length (tape (tp m)) ∧
  stdout m `prefix_of` stdout m' ∧
  stdin m' `suffix_of` stdin m.
Proof.
  intros m m'.
  assert (exec (λ _, 7) (prog ",.") 2 m = Finished m' ∨
          ∃ e, exec (λ _, 7) (prog ",.") 2 m = Aborted e m') as H by (left; reflexivity).
  split; [exact H|].
  exact (run_extends_output_consumes_input (λ _, 7) (prog ",.") 2 m m' H).
Defined.

Lemma dispatch_bytes jumps c ip m ip' m' :
  Forall is_byte (tape (tp m)) ∧ Forall is_byte (stdout m) →
  dispatch jumps c ip m = Ok (ip', m') →
  Forall is_byte (tape (tp m')) ∧ Forall is_byte (stdout m').
Proof.
  intros [Hcells Hout].
  assert (∀ z, is_byte (to_uchar z)) as Hbyte.
  { intros z. unfold is_byte, to_uchar. by apply Z.mod_pos_bound. }
  assert (∀ i x cells, is_byte x → store (tape (tp m)) i x = Ok cells →
                       Forall is_byte cells) as Hstore.
  { intros i x cells Hx. unfold store. case_decide; [|done]. intros [= <-].
    apply Forall_insert; done. }
  unfold dispatch.
  destruct (c =? "+")%char.
  { destruct (load (tape (tp m)) (pos (tp m))) as [v| |]; simpl; [|done..].
    destruct (store _ _ _) as [cells| |] eqn:Hst; simpl; [|done..].
    intros [= <- <-]. simpl. split; [|done]. by apply (Hstore _ _ _ (Hbyte _) Hst). }
  destruct (c =? "-")%char.
  { destruct (load (tape (tp m)) (pos (tp m))) as [v| |]; simpl; [|done..].
    destruct (store _ _ _) as [cells| |] eqn:Hst; simpl; [|done..].
    intros [= <- <-]. simpl. split; [|done]. by apply (Hstore _ _ _ (Hbyte _) Hst). }
  destruct (c =? ">")%char; [by case_decide; intros [= <- <-]|].
  destruct (c =? "<")%char; [by case_decide; intros [= <- <-]|].
  destruct (c =? ".")%char.
  { destruct (load (tape (tp m)) (pos (tp m))) as [v| |]; simpl; [|done..].
    intros [= <- <-]. simpl. split; [done|].
    apply Forall_app. split; [done|]. by apply Forall_singleton. }
  destruct (c =? ",")%char.
  { destruct (getchar (stdin m)) as [ch rest].
    destruct (store _ _ _) as [cells| |] eqn:Hst; simpl; [|done..].
    intros [= <- <-]. simpl. split; [|done].
    eapply Hstore; [|exact Hst].
    case_decide; [unfold is_byte; lia|apply Hbyte]. }
  destruct (c =? "[")%char.
  { destruct (load (tape (tp m)) (pos (tp m))) as [v| |]; simpl; [|done..].
    case_decide; [destruct (load jumps ip); simpl; [|done..]|];
      by intros [= <- <-]. }
  destruct (c =? "]")%char.
  { destruct (load (tape (tp m)) (pos (tp m))) as [v| |]; simpl; [|done..].
    case_decide; [destruct (load jumps ip); simpl; [|done..]|];
      by intros [= <- <-]. }
  by intros [= <- <-].
Qed.

(** X14. Cells and output stay bytes.  From a state whose cells and
    output are in [0, 255], every state in which [exec] returns has its
    cells and its output in [0, 255], whatever the values offered on the
    input. *)
Theorem run_keeps_bytes (junk : nat → Z) (code : list ascii)
    (fuel : nat) (m m' : machine) :
  Forall is_byte (tape (tp m)) → Forall is_byte (stdout m) →
  (exec junk code fuel m = Finished m' ∨ ∃ e, exec junk code fuel m = Aborted e m') →
  Forall is_byte (tape (tp m')) ∧ Forall is_byte (stdout m').
Proof.
  intros Hcells Hout Hend.
  apply exec_end_cases in Hend as [->|[table Hloop]]; [done|].
  revert Hloop.
  apply (exec_loop_preserves code table (λ m1,
    Forall is_byte (tape (tp m1)) ∧ Forall is_byte (stdout m1))); [|done].
  intros c ip m1 ip' m2 H1 Hd. by apply (dispatch_bytes table c ip m1 ip' m2).
Qed.

Lemma run_keeps_bytes_witness :
  let m := Machine (Tape [0; 0] 0 2) [321] [] in
  let m' := Machine (Tape [64; 0] 0 2) [] [64] in
  Forall is_byte (tape (tp m)) ∧ Forall is_byte (stdout m) ∧
  (exec (λ _, 7) (prog ",-.") 3 m = Finished m' ∨
   ∃ e, exec (λ _, 7) (prog ",-.") 3 m = Aborted e m') ∧
  Forall is_byte (tape (tp m')) ∧ Forall is_byte (stdout m').
Proof.
  intros m m'.
  assert (is_byte 0) as H0 by (split; [discriminate|reflexivity]).
  assert (Forall is_byte (tape (tp m))) as Hc.
  { apply Forall_cons_2; [exact H0|]. apply Forall_cons_2; [exact H0|]. apply Forall_nil_2. }
  assert (Forall is_byte (stdout m)) as Ho by apply Forall_nil_2.
  assert (exec (λ _, 7) (prog ",-.") 3 m = Finished m' ∨
          ∃ e, exec (λ _, 7) (prog ",-.") 3 m = Aborted e m') as H by (left; reflexivity).
  split; [exact Hc|]. split; [exact Ho|]. split; [exact H|].
  exact (run_keeps_bytes (λ _, 7) (prog ",-.") 3 m m' Hc Ho H).
Defined.

(** ** Programs without loops *)

Section StraightLine.
Variable junk : nat → Z.
Variable code : list ascii.
Variable table : list Z.
Hypothesis Hlen : code_len code < 2 ^ 61.
Hypothesis Htable : build_jumps junk code = Ok table.
Hypothesis Hfree : ∀ i c, code !! i = Some c → ¬ is_bracket c.

Lemma straight_step (ip : nat) m :
  (ip < length code)%nat → tape_ok (tp m) →
  ∃ m', exec_body code table (Z.of_nat ip) m = Ok (Z.of_nat (S ip), m') ∧
        tape_ok (tp m').
Proof.
  intros Hip Hok.
  destruct (lookup_lt_is_Some_2 code ip Hip) as [c Hc].
  destruct (lookup_lt_is_Some_2 table ip) as [k Hk].
  { by rewrite (table_length junk code table Hlen Htable). }
  destruct (dispatch_safe table c (Z.of_nat ip) m Hok) as (ip' & m' & Hd & Hok' & _).
  { exists k. by apply load_nat. }
  destruct (dispatch_frame table c (Z.of_nat ip) m ip' m' Hd)
    as (_ & _ & _ & _ & _ & _ & _ & _ & Hsame).
  rewrite (Hsame (Hfree ip c Hc)) in Hd.
  exists m'. split; [|done].
  unfold exec_body. rewrite (load_nat _ _ _ Hc). simpl. rewrite Hd. simpl.
  rewrite (index_next code Hlen ip Hip). do 2 f_equal. lia.
Qed.

Lemma straight_run n : ∀ (ip : nat) m,
  (ip + n = length code)%nat → tape_ok (tp m) →
  ∃ m', tape_ok (tp m') ∧
        (∀ fuel, (n ≤ fuel)%nat → exec_loop code table fuel (Z.of_nat ip) m = Finished m') ∧
        (∀ fuel, (fuel < n)%nat → exec_loop code table fuel (Z.of_nat ip) m = OutOfFuel).
Proof.
  induction n as [|n IH]; intros ip m Hn Hok.
  - exists m. split; [done|]. split; [|intros fuel Hf; lia].
    intros fuel _. destruct fuel; simpl; rewrite decide_False; unfold code_len; done || lia.
  - destruct (straight_step ip m) as (m1 & Hbody & Hok1); [lia|done|].
    destruct (IH (S ip) m1) as (m' & Hok' & Hfin & Hout); [lia|done|].
    exists m'. split; [done|]. split.
    + intros [|fuel] Hf; [lia|].
      rewrite (exec_loop_step code table fuel ip m _ m1) by (lia || done).
      apply Hfin. lia.
    + intros [|fuel] Hf.
      * simpl. rewrite decide_True; [done|]. unfold code_len. lia.
      * rewrite (exec_loop_step code table fuel ip m _ m1) by (lia || done).
        apply Hout. lia.
Qed.
End StraightLine.

(** X15. A program without brackets always terminates: on a
    well-formed tape [exec] leaves its loop after exactly as many
    iterations as the program has characters, for every input; it is
    still running with less fuel and has finished, in the same state,
    with that much or more. *)
Theorem straight_line_program_terminates (junk : nat → Z) (code : list ascii)
    (m : machine) :
  code_len code < 2 ^ 61 →
  (∀ i c, code !! i = Some c → ¬ is_bracket c) →
  tape_ok (tp m) →
  ∃ m', tape_ok (tp m') ∧
        (∀ fuel, (length code ≤ fuel)%nat → exec junk code fuel m = Finished m') ∧
        (∀ fuel, (fuel < length code)%nat → exec junk code fuel m = OutOfFuel).
Proof.
  intros Hlen Hfree Hok.
  destruct (build_jumps_cases junk code Hlen)
    as [(s & Hb & _)|[(k & _ & [Hk _] & _)|(s & t & r & _ & Hinv & _)]].
  - destruct (straight_run junk code (jumps s) Hlen Hb Hfree (length code) 0 m)
      as (m' & Hok' & Hfin & Hout); [lia|done|].
    exists m'. unfold exec. rewrite Hb. done.
  - destruct (Hfree k _ Hk). by right.
  - destruct (inv_chain _ _ _ _ Hinv) as (_ & Ht & _).
    destruct (Hfree t _ Ht). by left.
Qed.

Lemma straight_line_program_terminates_witness :
  let m := Machine (Tape [0; 0] 0 2) [65] [] in
  code_len (prog ",+>.") < 2 ^ 61 ∧
  (∀ i c, prog ",+>." !! i = Some c → ¬ is_bracket c) ∧
  tape_ok (tp m) ∧
  ∃ m', tape_ok (tp m') ∧
        (∀ fuel, (length (prog ",+>.") ≤ fuel)%nat →
                 exec (λ _, 7) (prog ",+>.") fuel m = Finished m') ∧
        (∀ fuel, (fuel < length (prog ",+>."))%nat →
                 exec (λ _, 7) (prog ",+>.") fuel m = OutOfFuel).
Proof.
  intros m.
  assert (∀ i c, prog ",+>." !! i = Some c → ¬ is_bracket c) as Hfree.
  { intros [|[|[|[|i]]]] c Hc [-> | ->]; discriminate Hc. }
  assert (tape_ok (tp m)) as Hok by (repeat split; try discriminate; reflexivity).
  split; [reflexivity|]. split; [exact Hfree|]. split; [exact Hok|].
  exact (straight_line_program_terminates (λ _, 7) (prog ",+>.") m eq_refl Hfree Hok).
Defined.

(** ** The loop [[-]] *)



Section ClearLoop.
Variable junk : nat → Z.
Variable code : list ascii.
Variable table : list Z.
Variable ip : nat.
Hypothesis Hlen : code_len code < 2 ^ 61.
Hypothesis Htable : build_jumps junk code = Ok table.
Hypothesis Hopen : code !! ip = Some "["%char.
Hypothesis Hdec : code !! S ip = Some "-"%char.
Hypothesis Hclose : code !! S (S ip) = Some "]"%char.









End ClearLoop.



(** ** The driver *)

Lemma main_tape junk code :
  code_len code < SIZE_MODULUS →
  ∃ n, 1 ≤ n ∧
       tape_init junk (if decide (code_len code ≠ 0) then code_len code else 1) =
         Ok (Tape (replicate (Z.to_nat n) 0) 0 n).
Proof.
  intros Hlen.
  set (n := if decide (code_len code ≠ 0) then code_len code else 1).
  assert (1 ≤ n < SIZE_MODULUS) as Hn.
  { unfold n, code_len, SIZE_MODULUS in *. case_decide; lia. }
  exists n. split; [lia|]. rewrite tape_init_spec by lia.
  by rewrite decide_False by lia.
Qed.

(** X17. A run of [main] does not depend on what [malloc] leaves in
    the blocks it returns, for the tape (overwritten by [tape_init]) as
    for the stack of [build_jumps]: with the same program, fuel and
    input, the outcome is the same. *)
Theorem main_ignores_fresh_memory (junk1 junk2 : nat → Z) (code : list ascii)
    (fuel : nat) (input : list Z) :
  code_len code < SIZE_MODULUS →
  main junk1 code fuel input = main junk2 code fuel input.
Proof.
  intros Hlen. unfold main.
  set (n := if decide (code_len code ≠ 0) then code_len code else 1).
  assert (0 ≤ n < SIZE_MODULUS) as Hn.
  { unfold n, code_len, SIZE_MODULUS in *. case_decide; lia. }
  rewrite !tape_init_spec by done.
  unfold exec. by rewrite (build_jumps_agree junk1 junk2 code).
Qed.

Lemma main_ignores_fresh_memory_witness :
  code_len (prog ",[.-]") < SIZE_MODULUS ∧
  main (λ _, 7) (prog ",[.-]") 20 [3] = main (λ n, Z.of_nat n) (prog ",[.-]") 20 [3].
Proof.
  split; [reflexivity|].
  exact (main_ignores_fresh_memory (λ _, 7) (λ n, Z.of_nat n) (prog ",[.-]") 20 [3] eq_refl).
Defined.

(** X18. A program whose brackets do not match is not reported through
    the exit status: when the file was read and [build_jumps] fails,
    [main] returns 0, having written nothing to the output and read
    nothing from the input. *)
Theorem bracket_error_exits_with_zero (junk : nat → Z) (code : list ascii)
    (e : match_error) (fuel : nat) (input : list Z) :
  code_len code < SIZE_MODULUS →
  build_jumps junk code = BracketError e →
  main_exit junk 2 (Some code) fuel input = Some (0, input, []).
Proof.
  intros Hlen Herr. unfold main_exit. simpl. unfold main.
  destruct (main_tape junk code Hlen) as (n & _ & ->).
  unfold exec. by rewrite Herr.
Qed.

Lemma bracket_error_exits_with_zero_witness :
  code_len (prog ",.[") < SIZE_MODULUS ∧
  build_jumps (λ _, 7) (prog ",.[") = BracketError (UnmatchedOpen 2) ∧
  main_exit (λ _, 7) 2 (Some (prog ",.[")) 10 [65] = Some (0, [65], []).
Proof.
  split; [reflexivity|]. split; [reflexivity|].
  exact (bracket_error_exits_with_zero (λ _, 7) (prog ",.[") _ 10 [65] eq_refl eq_refl).
Defined.

(** ** Fuel *)




(** ** The loop [[]] *)

(** X20. There is no guard against a loop that cannot end: wherever
    [[]] stands in a program that [build_jumps] accepts, a run that
    reaches its loop-open with another value than 0 in the cell at the
    cursor never leaves the loop of [exec], whatever the bound on the
    number of iterations. *)
Theorem empty_loop_never_returns (junk : nat → Z) (code : list ascii)
    (table : list Z) (ip : nat) (m : machine) (v : Z) (fuel : nat) :
  code_len code < 2 ^ 61 →
  build_jumps junk code = Ok table →
  code !! ip = Some "["%char →
  code !! S ip = Some "]"%char →
  cell_at_cursor m v → v ≠ 0 →
  exec_loop code table fuel (Z.of_nat ip) m = OutOfFuel.
Proof.
  intros Hlen Htable Hopen Hclose Hv Hnz.
  assert (S ip < length code)%nat as Hbound by (by eapply lookup_lt_Some).
  assert (table !! S ip = Some (Z.of_nat ip)) as Hback.
  { destruct (build_jumps_Ok_inv junk code Hlen table Htable) as (s & Hinv & <-).
    destruct (inv_table code s Hinv) as (_ & Hpairs & _).
    destruct (Hpairs ip (S ip)) as (_ & H2 & _); [|done].
    split; [done|]. split; [done|]. split; [lia|]. by rewrite segment_nil. }
  assert (exec_body code table (Z.of_nat ip) m = Ok (Z.of_nat (S ip), m)) as Henter.
  { unfold exec_body. rewrite (load_nat _ _ _ Hopen). simpl.
    rewrite (dispatch_bracket_fallthrough table "[" (Z.of_nat ip) m v Hv); simpl.
    - rewrite (index_next code Hlen ip) by lia. do 2 f_equal. lia.
    - by left.
    - intros [[_ ?]|[? _]]; done. }
  assert (exec_body code table (Z.of_nat (S ip)) m = Ok (Z.of_nat (S ip), m)) as Hspin.
  { destruct (dispatch_ip table "]" (Z.of_nat (S ip)) m v Hv) as [Hjump _].
    unfold exec_body. rewrite (load_nat _ _ _ Hclose). simpl.
    rewrite (Hjump ltac:(by right) _ (load_nat _ _ _ Hback)). simpl.
    rewrite (to_size_t_small (Z.of_nat ip)) by (unfold code_len, SIZE_MODULUS in *; lia).
    rewrite (index_next code Hlen ip) by lia. do 2 f_equal. lia. }
  assert (∀ n, exec_loop code table n (Z.of_nat (S ip)) m = OutOfFuel) as Hloop.
  { induction n as [|n IH].
    - simpl. rewrite decide_True; [done|]. unfold code_len. lia.
    - by rewrite (exec_loop_step code table n (S ip) m _ m Hbound Hspin). }
  destruct fuel as [|fuel].
  - simpl. rewrite decide_True; [done|]. unfold code_len. lia.
  - rewrite (exec_loop_step code table fuel ip m _ m ltac:(lia) Henter). apply Hloop.
Qed.

Lemma empty_loop_never_returns_witness :
  let code := prog "+[]." in
  let table := [0; 2; 1; 0] in
  let m := Machine (Tape [1; 0] 0 2) [] [] in
  code_len code < 2 ^ 61 ∧
  build_jumps (λ _, 7) code = Ok table ∧
  code !! 1%nat = Some "["%char ∧ code !! 2%nat = Some "]"%char ∧
  cell_at_cursor m 1 ∧ 1 ≠ 0 ∧
  exec_loop code table 1000 (Z.of_nat 1) m = OutOfFuel.
Proof.
  intros code table m.
  assert (1 ≠ 0) as Hnz by discriminate.
  split; [reflexivity|]. split; [reflexivity|]. split; [reflexivity|].
  split; [reflexivity|]. split; [reflexivity|]. split; [exact Hnz|].
  exact (empty_loop_never_returns (λ _, 7) code table 1 m 1 1000
           eq_refl eq_refl eq_refl eq_refl eq_refl Hnz).
Defined.
